(** * Walking Stories: route segmentation, narration sequencing, trip tracking

    A shallow embedding of the algorithmic core of the web application:

    - [src/utils/leafletMaps.js]: [generateCheckpoints], [calculateDistance];
    - [src/utils/gemini.js]: [generateFallbackStory];
    - [src/App.jsx]: [handleCheckpointReached], [handleError];
    - [src/components/LeafletMapView.jsx]: the position callback, the error
      callback and the proximity effect.

    Conventions.  Array lengths, loop counters and array indices are [nat].
    JavaScript Numbers that carry coordinates and distances are read as real
    numbers: [+ - * /] are the field operations of [R] and [Math.sin],
    [Math.cos], [Math.sqrt], [Math.atan2], [Math.PI] are [sin], [cos],
    [sqrt], [atan2] (defined below from [atan]) and [PI].  Rounding of IEEE
    doubles is not part of this model: in doubles the haversine term can
    underflow to 0 for distinct points and round above 1 near antipodes,
    where the code returns [NaN].  The statements about distances are
    therefore symmetry, the diagonal, comparisons with a threshold and the
    order in which the code adds distances up, not exact values.  React
    state is passed explicitly:
    a handler reads the state of the render that created it and queues
    updates on the pending state. *)

From Stdlib Require Import String Ascii DecimalString NArith ZArith.
From Stdlib Require Import Reals Lra Psatz Sorted.
From Stdlib Require Import List Bool Arith Lia.
Import ListNotations.

(** ** JavaScript completions *)

Inductive JsError : Type :=
| TypeError (message : string).

Inductive completion (A : Type) : Type :=
| Normal (value : A)
| Throw (error : JsError).

Arguments Normal {A} value.
Arguments Throw {A} error.

(** Template-literal conversion of a non-negative integer: [`${i}`]. *)
Definition showNat (n : nat) : string :=
  NilEmpty.string_of_uint (Nat.to_uint n).

(** ** Data shared by the modules *)

(** [{ lat, lng }] *)
Record LatLng : Type := mkLatLng { lat : R; lng : R }.

(** A GeoJSON coordinate, the two-element array [[lng, lat]]. *)
Definition Coordinate : Type := (R * R)%type.

(** [route.geometry]; the [coordinates] property may be missing. *)
Record Geometry : Type := mkGeometry { coordinates : option (list Coordinate) }.

(** The object returned by [calculateWalkingRoute]; only the properties read
    by the code below are kept.  [geometry] may be missing. *)
Record Route : Type := mkRoute {
  geometry : option Geometry;
  distance : R;
  duration : R;
  destCoords : LatLng
}.

Record Checkpoint : Type := mkCheckpoint {
  position : LatLng;
  description : string;
  index : nat
}.

(** [Array.prototype.includes] on an array of indices. *)
Definition includes (l : list nat) (x : nat) : bool :=
  existsb (Nat.eqb x) l.

(** [array.forEach((element, index) => ...)], where the callback acts on a
    state [St] (the variables it mutates or the updates it queues). *)
Fixpoint forEachFrom {A St : Type} (callback : A -> nat -> St -> St)
    (l : list A) (index : nat) (s : St) : St :=
  match l with
  | [] => s
  | element :: rest => forEachFrom callback rest (S index) (callback element index s)
  end.

Definition forEach {A St : Type} (callback : A -> nat -> St -> St)
    (l : list A) (s : St) : St :=
  forEachFrom callback l 0 s.

(** ** src/utils/leafletMaps.js *)

Module LeafletMaps.

(** The body of the [for] loop of [generateCheckpoints], iterated [steps]
    times from counter [i] with the array [checkpoints] built so far.
    Destructuring [coordinates[pointIndex]] throws when the element is
    [undefined]. *)
Fixpoint checkpointsLoop (coordinates : list Coordinate)
    (totalPoints interval : nat) (steps i : nat)
    (checkpoints : list Checkpoint) : completion (list Checkpoint) :=
  match steps with
  | O => Normal checkpoints
  | S steps' =>
      let pointIndex := i * interval in
      if pointIndex <? totalPoints then
        match nth_error coordinates pointIndex with
        | Some (lng0, lat0) =>
            checkpointsLoop coordinates totalPoints interval steps' (S i)
              (checkpoints ++
               [ {| position := {| lat := lat0; lng := lng0 |};
                    description := ("Checkpoint " ++ showNat i)%string;
                    index := i |} ])
        | None => Throw (TypeError "undefined is not iterable"%string)
        end
      else
        checkpointsLoop coordinates totalPoints interval steps' (S i) checkpoints
  end.

Definition generateCheckpoints (route : Route) (numCheckpoints : nat)
  : completion (list Checkpoint) :=
  match geometry route with
  | None => Normal []
  | Some g =>
      match coordinates g with
      | None => Normal []
      | Some coordinates =>
          let totalPoints := length coordinates in
          let interval := totalPoints / (numCheckpoints + 1) in
          checkpointsLoop coordinates totalPoints interval numCheckpoints 1 []
      end
  end.

Local Open Scope R_scope.

(** [Math.atan2(y, x)] on real arguments. *)
Definition atan2 (y x : R) : R :=
  if Rlt_dec 0 x then atan (y / x)
  else if Rlt_dec x 0 then
    (if Rle_dec 0 y then atan (y / x) + PI else atan (y / x) - PI)
  else
    (if Rlt_dec 0 y then PI / 2
     else if Rlt_dec y 0 then - (PI / 2) else 0).

(** Earth's radius in meters, the constant [R] of [calculateDistance]. *)
Definition R_earth : R := 6371000.

(** The haversine term [a] of [calculateDistance]. *)
Definition haversine_a (lat1 lon1 lat2 lon2 : R) : R :=
  let phi1 := (lat1 * PI) / 180 in
  let phi2 := (lat2 * PI) / 180 in
  let dphi := ((lat2 - lat1) * PI) / 180 in
  let dlambda := ((lon2 - lon1) * PI) / 180 in
  sin (dphi / 2) * sin (dphi / 2) +
  cos phi1 * cos phi2 * sin (dlambda / 2) * sin (dlambda / 2).

(** Over the reals both square roots are taken of numbers between 0 and 1
    (lemma [haversine_a_range] below), where [sqrt] is the real square
    root. *)
Definition calculateDistance (lat1 lon1 lat2 lon2 : R) : R :=
  let a := haversine_a lat1 lon1 lat2 lon2 in
  let c := 2 * atan2 (sqrt a) (sqrt (1 - a)) in
  R_earth * c.

End LeafletMaps.

(** ** src/utils/gemini.js *)

Record Chapter : Type := mkChapter {
  chapterNumber : nat;
  title : string;
  content : string;
  estimatedReadingTime : nat
}.

(** A story object; [storyTitle] is its [title] property.  A story parsed
    from a generated answer may lack [chapters]. *)
Record Story : Type := mkStory {
  storyTitle : string;
  chapters : option (list Chapter)
}.

Module Gemini.

Definition fallbackChapter (locations : list string) (location : string) (index : nat) : Chapter :=
  let next := nth (index + 1) locations "undefined"%string in
  {| chapterNumber := index + 1;
     title := ("Chapter " ++ showNat (index + 1) ++ ": Journey to " ++ next)%string;
     content := ("As you walk towards " ++ next ++
                 ", take in the surroundings around " ++ location ++
                 ". Notice the architecture, the people, the sounds, and the atmosphere. Every step brings you closer to your destination, and every moment offers something new to discover. What stories do these streets hold? What lives have passed through here before you?")%string;
     estimatedReadingTime := 3 |}.

Definition generateFallbackStory (origin destination : string)
    (checkpoints : list Checkpoint) : Story :=
  let locations := [origin] ++ map description checkpoints ++ [destination] in
  let chapters :=
    forEach (fun location index chapters =>
               if index <? length locations - 1 then
                 chapters ++ [fallbackChapter locations location index]
               else chapters)
            locations [] in
  {| storyTitle := "Your Walking Journey"; chapters := Some chapters |}.

(** [array.slice(start, end)] for indices that are not negative. *)
Definition slice {A : Type} (l : list A) (startIdx endIdx : nat) : list A :=
  firstn (endIdx - startIdx) (skipn startIdx l).

(** The separator of paragraphs, two line feeds. *)
Definition paragraphBreak : string :=
  String (ascii_of_nat 10) (String (ascii_of_nat 10) EmptyString).

(** [Math.ceil(a / b)] for a count [a] and a positive count [b].  With
    [b = 0] the quotient is [Infinity] or [NaN] and the loop that uses it
    does not run; the value here is then irrelevant. *)
Definition ceilDiv (a b : nat) : nat := (a + b - 1) / b.

Section ParseText.

(** The host's [String.prototype.split] and [String.prototype.trim]. *)
Variable split : string -> string -> list string.
Variable trim : string -> string.

(** [text.split("\n\n").filter((p) => p.trim().length > 50)] *)
Definition paragraphsOf (text : string) : list string :=
  filter (fun p => 50 <? String.length (trim p)) (split text paragraphBreak).

(** The chapter pushed for counter [i]. *)
Definition parsedChapter (paragraphs : list string) (chaptersPerParagraph : nat)
    (chapterDuration : nat) (i : nat) : Chapter :=
  let startIdx := i * chaptersPerParagraph in
  let endIdx := Nat.min ((i + 1) * chaptersPerParagraph) (length paragraphs) in
  let chapterContent :=
    String.concat paragraphBreak (slice paragraphs startIdx endIdx) in
  {| chapterNumber := i + 1;
     title := ("Chapter " ++ showNat (i + 1))%string;
     content := if String.eqb chapterContent EmptyString
                then "Continue your journey as the story unfolds..."%string
                else chapterContent;
     estimatedReadingTime := chapterDuration |}.

(** The [for] loop, [count] iterations from counter [i]. *)
Fixpoint parseLoop (paragraphs : list string) (chaptersPerParagraph : nat)
    (chapterDuration : nat) (count i : nat) (chapters : list Chapter)
  : list Chapter :=
  match count with
  | O => chapters
  | S count' =>
      parseLoop paragraphs chaptersPerParagraph chapterDuration count' (S i)
        (chapters ++ [parsedChapter paragraphs chaptersPerParagraph chapterDuration i])
  end.

Definition parseTextToChapters (text : string) (numChapters chapterDuration : nat)
  : Story :=
  let paragraphs := paragraphsOf text in
  let chaptersPerParagraph := ceilDiv (length paragraphs) numChapters in
  let chapters :=
    parseLoop paragraphs chaptersPerParagraph chapterDuration numChapters 0 [] in
  {| storyTitle := "Your Walking Adventure"; chapters := Some chapters |}.

End ParseText.

End Gemini.

(** ** src/App.jsx *)

(** The [newPosition] object built by the position callback: a [LatLng]
    with [accuracy] and [timestamp]. *)
Record Position : Type := mkPosition {
  latlng :> LatLng;
  accuracy : R;
  timestamp : R
}.

Module App.

Inductive Screen : Type :=
| MapSelection | RouteSelection | Walking | Summary | History.

(** The [useState] cells of [App] ([tripData], written only by
    [handleTripCompleted], is left out). *)
Record State : Type := mkState {
  currentScreen : Screen;
  route : option Route;
  story : option Story;
  currentPosition : option Position;
  checkpoints : list Checkpoint;
  completedCheckpoints : list nat;
  currentChapter : nat;
  isLoading : bool;
  error : option string
}.

Definition initialState : State :=
  {| currentScreen := MapSelection; route := None; story := None;
     currentPosition := None; checkpoints := []; completedCheckpoints := [];
     currentChapter := 0; isLoading := false; error := None |}.

Definition setCurrentScreen (v : Screen) (s : State) : State :=
  {| currentScreen := v; route := route s; story := story s;
     currentPosition := currentPosition s; checkpoints := checkpoints s;
     completedCheckpoints := completedCheckpoints s;
     currentChapter := currentChapter s; isLoading := isLoading s;
     error := error s |}.

Definition setRoute (v : option Route) (s : State) : State :=
  {| currentScreen := currentScreen s; route := v; story := story s;
     currentPosition := currentPosition s; checkpoints := checkpoints s;
     completedCheckpoints := completedCheckpoints s;
     currentChapter := currentChapter s; isLoading := isLoading s;
     error := error s |}.

Definition setStory (v : option Story) (s : State) : State :=
  {| currentScreen := currentScreen s; route := route s; story := v;
     currentPosition := currentPosition s; checkpoints := checkpoints s;
     completedCheckpoints := completedCheckpoints s;
     currentChapter := currentChapter s; isLoading := isLoading s;
     error := error s |}.

Definition setCurrentPosition (v : option Position) (s : State) : State :=
  {| currentScreen := currentScreen s; route := route s; story := story s;
     currentPosition := v; checkpoints := checkpoints s;
     completedCheckpoints := completedCheckpoints s;
     currentChapter := currentChapter s; isLoading := isLoading s;
     error := error s |}.

Definition setCheckpoints (v : list Checkpoint) (s : State) : State :=
  {| currentScreen := currentScreen s; route := route s; story := story s;
     currentPosition := currentPosition s; checkpoints := v;
     completedCheckpoints := completedCheckpoints s;
     currentChapter := currentChapter s; isLoading := isLoading s;
     error := error s |}.

(** [setCompletedCheckpoints(prev => ...)]: a functional update. *)
Definition setCompletedCheckpoints (f : list nat -> list nat) (s : State) : State :=
  {| currentScreen := currentScreen s; route := route s; story := story s;
     currentPosition := currentPosition s; checkpoints := checkpoints s;
     completedCheckpoints := f (completedCheckpoints s);
     currentChapter := currentChapter s; isLoading := isLoading s;
     error := error s |}.

Definition setCurrentChapter (v : nat) (s : State) : State :=
  {| currentScreen := currentScreen s; route := route s; story := story s;
     currentPosition := currentPosition s; checkpoints := checkpoints s;
     completedCheckpoints := completedCheckpoints s;
     currentChapter := v; isLoading := isLoading s;
     error := error s |}.

Definition setIsLoading (v : bool) (s : State) : State :=
  {| currentScreen := currentScreen s; route := route s; story := story s;
     currentPosition := currentPosition s; checkpoints := checkpoints s;
     completedCheckpoints := completedCheckpoints s;
     currentChapter := currentChapter s; isLoading := v;
     error := error s |}.

Definition setError (v : option string) (s : State) : State :=
  {| currentScreen := currentScreen s; route := route s; story := story s;
     currentPosition := currentPosition s; checkpoints := checkpoints s;
     completedCheckpoints := completedCheckpoints s;
     currentChapter := currentChapter s; isLoading := isLoading s;
     error := v |}.

(** The object passed to [onRouteSelected]. *)
Record RouteData : Type := mkRouteData {
  rd_route : Route;
  rd_checkpoints : list Checkpoint;
  rd_story : option Story
}.

(** [story?.chapters], [None] when either is missing. *)
Definition storyChapters (st : option Story) : option (list Chapter) :=
  match st with
  | Some s => chapters s
  | None => None
  end.

Definition handleRouteSelected (routeData : RouteData) (pending : State) : State :=
  let p1 := setRoute (Some (rd_route routeData)) pending in
  let p2 := setCheckpoints (rd_checkpoints routeData) p1 in
  let p3 := setStory (rd_story routeData) p2 in
  let p4 := setCurrentScreen Walking p3 in
  let p5 := setError None p4 in
  match storyChapters (rd_story routeData) with
  | Some chs => if 0 <? length chs then setCurrentChapter 0 p5 else p5
  | None => p5
  end.

(** [handleCheckpointReached] as created by the render of state [render];
    its updates are queued on [pending]. *)
Definition handleCheckpointReached (render : State) (checkpointIndex : nat)
    (pending : State) : State :=
  if negb (includes (completedCheckpoints render) checkpointIndex) then
    let p1 := setCompletedCheckpoints (fun prev => prev ++ [checkpointIndex]) pending in
    let nextChapter := checkpointIndex + 1 in
    match storyChapters (story render) with
    | Some chs =>
        if nextChapter <? length chs then setCurrentChapter nextChapter p1 else p1
    | None => p1
    end
  else pending.

Definition handleError (errorMessage : string) (pending : State) : State :=
  setIsLoading false (setError (Some errorMessage) pending).

(** The sequencer operation: the handler of the committed state is called
    and its updates are committed before the next call. *)
Definition onCheckpointReached (index : nat) (s : State) : State :=
  handleCheckpointReached s index s.

Definition handleNavigation (screen : Screen) (pending : State) : State :=
  setError None (setCurrentScreen screen pending).

(** The state updates of [resetApp]; the call [audioService.stop()] that
    follows them is made by [Player.resetApp] below. *)
Definition resetAppState (pending : State) : State :=
  let p1 := setRoute None pending in
  let p2 := setStory None p1 in
  let p3 := setCurrentPosition None p2 in
  let p4 := setCheckpoints [] p3 in
  let p5 := setCompletedCheckpoints (fun _ => []) p4 in
  let p6 := setCurrentChapter 0 p5 in
  let p7 := setCurrentScreen MapSelection p6 in
  setError None p7.

End App.

(** ** The host's geolocation objects *)

Module Geolocation.

Record GeolocationCoordinates : Type := mkCoords {
  latitude : R;
  longitude : R;
  accuracy : R
}.

Record GeolocationPosition : Type := mkGeoPosition {
  coords : GeolocationCoordinates;
  timestamp : R
}.

Record GeolocationPositionError : Type := mkGeoError {
  code : nat;
  message : string
}.

End Geolocation.

(** ** src/components/LeafletMapView.jsx *)

Module LeafletMapView.

Import LeafletMaps.

(** The [useState] cells and refs of the component. *)
Record State : Type := mkState {
  isTracking : bool;
  tripStartTime : option R;
  totalDistance : R;
  mapCenter : R * R;
  mapZoom : nat;
  watchIdRef : option nat;
  lastPositionRef : option Position
}.

Definition initialState : State :=
  {| isTracking := false; tripStartTime := None; totalDistance := 0%R;
     mapCenter := (10.7769, 106.7029)%R; mapZoom := 13;
     watchIdRef := None; lastPositionRef := None |}.

Definition setIsTracking (v : bool) (s : State) : State :=
  {| isTracking := v; tripStartTime := tripStartTime s;
     totalDistance := totalDistance s; mapCenter := mapCenter s;
     mapZoom := mapZoom s; watchIdRef := watchIdRef s;
     lastPositionRef := lastPositionRef s |}.

Definition setTripStartTime (v : option R) (s : State) : State :=
  {| isTracking := isTracking s; tripStartTime := v;
     totalDistance := totalDistance s; mapCenter := mapCenter s;
     mapZoom := mapZoom s; watchIdRef := watchIdRef s;
     lastPositionRef := lastPositionRef s |}.

(** [setTotalDistance(prev => ...)]: a functional update. *)
Definition setTotalDistance (f : R -> R) (s : State) : State :=
  {| isTracking := isTracking s; tripStartTime := tripStartTime s;
     totalDistance := f (totalDistance s); mapCenter := mapCenter s;
     mapZoom := mapZoom s; watchIdRef := watchIdRef s;
     lastPositionRef := lastPositionRef s |}.

Definition setMapCenter (v : R * R) (s : State) : State :=
  {| isTracking := isTracking s; tripStartTime := tripStartTime s;
     totalDistance := totalDistance s; mapCenter := v;
     mapZoom := mapZoom s; watchIdRef := watchIdRef s;
     lastPositionRef := lastPositionRef s |}.

Definition setWatchIdRef (v : option nat) (s : State) : State :=
  {| isTracking := isTracking s; tripStartTime := tripStartTime s;
     totalDistance := totalDistance s; mapCenter := mapCenter s;
     mapZoom := mapZoom s; watchIdRef := v;
     lastPositionRef := lastPositionRef s |}.

Definition setLastPositionRef (v : option Position) (s : State) : State :=
  {| isTracking := isTracking s; tripStartTime := tripStartTime s;
     totalDistance := totalDistance s; mapCenter := mapCenter s;
     mapZoom := mapZoom s; watchIdRef := watchIdRef s;
     lastPositionRef := v |}.

(** Calls that leave the component: the console and the geolocation API. *)
Inductive Effect : Type :=
| ConsoleError (text : string)
| WatchPosition (id : nat)
| ClearWatch (id : nat).

(** The component, its parent's state (reached through the callback props
    [onPositionUpdate], [onCheckpointReached], [onError]) and the calls made
    so far. *)
Record World : Type := mkWorld {
  app : App.State;
  view : State;
  effects : list Effect
}.

Definition updApp (f : App.State -> App.State) (w : World) : World :=
  {| app := f (app w); view := view w; effects := effects w |}.

Definition updView (f : State -> State) (w : World) : World :=
  {| app := app w; view := f (view w); effects := effects w |}.

Definition perform (e : Effect) (w : World) : World :=
  {| app := app w; view := view w; effects := effects w ++ [e] |}.

(** [startTracking]: [supported] is [navigator.geolocation], [now] the value
    of [new Date()], [watchId] the handle returned by the host.  The helper
    [watchPosition] of leafletMaps.js tests [navigator.geolocation] again,
    after this function already has. *)
Definition startTracking (supported : bool) (now : R) (watchId : nat)
    (w : World) : World :=
  if negb supported then
    updApp (App.handleError "Geolocation is not supported by this browser"%string) w
  else
    let w1 := updView (setIsTracking true) w in
    let w2 := updView (setTripStartTime (Some now)) w1 in
    updView (setWatchIdRef (Some watchId)) (perform (WatchPosition watchId) w2).

(** The tracking effect when one of its dependencies [isTracking],
    [onError], [onPositionUpdate] has changed: the cleanup of the previous
    run, then the body.  [watchIdRef.current] is truthy when it holds a
    handle other than 0. *)
Definition trackingEffectRerun (supported : bool) (now : R) (watchId : nat)
    (w : World) : World :=
  let w1 :=
    match watchIdRef (view w) with
    | Some id => if id =? 0 then w else perform (ClearWatch id) w
    | None => w
    end in
  if negb (isTracking (view w1)) then startTracking supported now watchId w1
  else w1.

(** The success callback handed to [watchPosition]. *)
Definition onPosition (position : Geolocation.GeolocationPosition)
    (w : World) : World :=
  let newPosition :=
    {| latlng := {| lat := Geolocation.latitude (Geolocation.coords position);
                    lng := Geolocation.longitude (Geolocation.coords position) |};
       accuracy := Geolocation.accuracy (Geolocation.coords position);
       timestamp := Geolocation.timestamp position |} in
  let w1 := updView (setMapCenter (lat newPosition, lng newPosition)) w in
  let w2 :=
    match lastPositionRef (view w1) with
    | Some last =>
        let distance :=
          calculateDistance (lat last) (lng last) (lat newPosition) (lng newPosition) in
        updView (setTotalDistance (fun prev => prev + distance / 1000)%R) w1
    | None => w1
    end in
  let w3 := updView (setLastPositionRef (Some newPosition)) w2 in
  updApp (App.setCurrentPosition (Some newPosition)) w3.

(** The error callback handed to [watchPosition]. *)
Definition onPositionError (error : Geolocation.GeolocationPositionError)
    (w : World) : World :=
  let w1 := perform (ConsoleError "Geolocation error:"%string) w in
  updApp (App.handleError
            ("Location tracking error: " ++ Geolocation.message error)%string) w1.

(** The [checkpoints.forEach] of the proximity effect, for the props of one
    render; [onCheckpointReached] is the callback prop. *)
Definition checkProximity {St : Type} (currentPosition : option Position)
    (checkpoints : list Checkpoint) (completedCheckpoints : list nat)
    (onCheckpointReached : nat -> St -> St) (s : St) : St :=
  match currentPosition with
  | None => s
  | Some currentPosition =>
      if length checkpoints =? 0 then s
      else
        forEach
          (fun checkpoint index s =>
             if includes completedCheckpoints index then s
             else
               let distance :=
                 calculateDistance (lat currentPosition) (lng currentPosition)
                   (lat (position checkpoint)) (lng (position checkpoint)) in
               if Rle_dec distance 50 then onCheckpointReached index s else s)
          checkpoints s
  end.

(** The test that follows the loop and calls [completeTrip]. *)
Definition destinationTest (currentPosition : option Position)
    (checkpoints : list Checkpoint) (completedCheckpoints : list nat)
    (route : option Route) : bool :=
  match currentPosition, route with
  | Some currentPosition, Some route =>
      if length checkpoints =? 0 then false
      else
        (length completedCheckpoints =? length checkpoints) ||
        (if Rle_dec (calculateDistance (lat currentPosition) (lng currentPosition)
                       (lat (destCoords route)) (lng (destCoords route))) 50
         then true else false)
  | _, _ => false
  end.

(** One run of the effect after the render of [render]: the callback prop is
    [App.handleCheckpointReached] of that render.  Returns the state once the
    queued updates are committed and the checkpoint-reached calls made. *)
Definition proximityEffect (render : App.State) : App.State * list nat :=
  checkProximity (App.currentPosition render) (App.checkpoints render)
    (App.completedCheckpoints render)
    (fun index '(pending, calls) =>
       (App.handleCheckpointReached render index pending, calls ++ [index]))
    (render, []).

(** The samples accepted so far, oldest first, fed to the callback. *)
Definition feed (samples : list Geolocation.GeolocationPosition) (w : World) : World :=
  fold_left (fun w position => onPosition position w) samples w.

(** Sum of the distances between consecutive samples, in meters:
    [pathFrom] starts from the previous sample's latitude and longitude. *)
Fixpoint pathFrom (la lo : R) (samples : list Geolocation.GeolocationPosition) : R :=
  match samples with
  | [] => 0%R
  | q :: rest =>
      (calculateDistance la lo
         (Geolocation.latitude (Geolocation.coords q))
         (Geolocation.longitude (Geolocation.coords q)) +
       pathFrom (Geolocation.latitude (Geolocation.coords q))
                (Geolocation.longitude (Geolocation.coords q)) rest)%R
  end.

Definition pathLength (samples : list Geolocation.GeolocationPosition) : R :=
  match samples with
  | [] => 0%R
  | p :: rest =>
      pathFrom (Geolocation.latitude (Geolocation.coords p))
               (Geolocation.longitude (Geolocation.coords p)) rest
  end.

End LeafletMapView.

(** ** src/utils/leafletMaps.js, second part: the directions-based planner *)

Module Maps.

(** A step of a leg of a directions result. *)
Record Step : Type := mkStep {
  end_location : LatLng;
  instructions : string;
  distanceText : string
}.

Record Leg : Type := mkLeg { steps : list Step }.

Record DirectionsRoute : Type := mkDirectionsRoute { legs : list Leg }.

Record DirectionsResult : Type := mkDirectionsResult {
  routes : list DirectionsRoute
}.

(** The checkpoint objects this planner pushes; [distance] is
    [step.distance.text]. *)
Record Checkpoint : Type := mkCheckpoint {
  position : LatLng;
  description : string;
  distance : string;
  index : nat
}.

(** [s.replace(/<[^>]*>/g, "")] as a scanner: [pending] holds the text
    read since an opening bracket that is not closed yet. *)
Fixpoint stripTagsFrom (pending : option string) (s : string) : string :=
  match s with
  | EmptyString =>
      match pending with
      | Some p => p
      | None => EmptyString
      end
  | String c rest =>
      match pending with
      | None =>
          if Ascii.eqb c "<"%char
          then stripTagsFrom (Some (String c EmptyString)) rest
          else String c (stripTagsFrom None rest)
      | Some p =>
          if Ascii.eqb c ">"%char
          then stripTagsFrom None rest
          else stripTagsFrom (Some (p ++ String c EmptyString)%string) rest
      end
  end.

Definition stripTags (s : string) : string := stripTagsFrom None s.

Definition checkpointOf (step : Step) (checkpoints : list Checkpoint) : Checkpoint :=
  {| position := end_location step;
     description := stripTags (instructions step);
     distance := distanceText step;
     index := length checkpoints + 1 |}.

(** The loop over the steps of one leg; it stops at the first push. *)
Fixpoint stepsLoop (numCheckpoints targetStepIndex : nat) (l : list Step)
    (currentStepIndex : nat) (checkpoints : list Checkpoint)
  : nat * list Checkpoint :=
  match l with
  | [] => (currentStepIndex, checkpoints)
  | step :: rest =>
      let currentStepIndex := currentStepIndex + 1 in
      if (targetStepIndex <=? currentStepIndex) &&
         (length checkpoints <? numCheckpoints)
      then (currentStepIndex, checkpoints ++ [checkpointOf step checkpoints])
      else stepsLoop numCheckpoints targetStepIndex rest currentStepIndex checkpoints
  end.

(** The loop over the legs; it stops once enough checkpoints are pushed. *)
Fixpoint legsLoop (numCheckpoints targetStepIndex : nat) (l : list Leg)
    (currentStepIndex : nat) (checkpoints : list Checkpoint)
  : nat * list Checkpoint :=
  match l with
  | [] => (currentStepIndex, checkpoints)
  | leg :: rest =>
      let '(currentStepIndex, checkpoints) :=
        stepsLoop numCheckpoints targetStepIndex (steps leg)
          currentStepIndex checkpoints in
      if numCheckpoints <=? length checkpoints
      then (currentStepIndex, checkpoints)
      else legsLoop numCheckpoints targetStepIndex rest currentStepIndex checkpoints
  end.

(** The outer [for] loop, [count] iterations from counter [i]. *)
Fixpoint targetsLoop (numCheckpoints stepInterval : nat) (l : list Leg)
    (count i : nat) (currentStepIndex : nat) (checkpoints : list Checkpoint)
  : nat * list Checkpoint :=
  match count with
  | O => (currentStepIndex, checkpoints)
  | S count' =>
      let targetStepIndex := i * stepInterval in
      let '(currentStepIndex, checkpoints) :=
        legsLoop numCheckpoints targetStepIndex l currentStepIndex checkpoints in
      targetsLoop numCheckpoints stepInterval l count' (S i)
        currentStepIndex checkpoints
  end.

(** [legs.reduce((acc, leg) => acc + leg.steps.length, 0)] *)
Definition totalSteps (l : list Leg) : nat :=
  fold_left (fun acc leg => acc + length (steps leg)) l 0.

(** Reading [route.routes[0].legs] throws when there is no route. *)
Definition generateCheckpoints (route : DirectionsResult) (numCheckpoints : nat)
  : completion (list Checkpoint) :=
  match routes route with
  | [] => Throw (TypeError "Cannot read properties of undefined"%string)
  | first :: _ =>
      let stepInterval := totalSteps (legs first) / (numCheckpoints + 1) in
      Normal (snd (targetsLoop numCheckpoints stepInterval (legs first)
                     numCheckpoints 1 0 []))
  end.

End Maps.

(** ** src/utils/database.js *)

Module Database.

(** A JavaScript string as its sequence of UTF-16 code units. *)
Definition JsString : Type := list N.

(** The code units of a string of one-byte characters. *)
Definition codeUnits (s : string) : JsString :=
  map N_of_ascii (list_ascii_of_string s).

(** The alphabet of base64: [A-Z], [a-z], [0-9], [+], [/]. *)
Definition base64Char (v : N) : N :=
  if (v <? 26)%N then (65 + v)%N
  else if (v <? 52)%N then (97 + (v - 26))%N
  else if (v <? 62)%N then (48 + (v - 52))%N
  else if (v =? 62)%N then 43%N
  else 47%N.

(** Base64 of a sequence of bytes, padded with [=] (code 61). *)
Fixpoint base64 (bytes : list N) : list N :=
  match bytes with
  | [] => []
  | [a] =>
      [base64Char (N.shiftr a 2);
       base64Char (N.shiftl (N.land a 3) 4);
       61%N; 61%N]
  | [a; b] =>
      [base64Char (N.shiftr a 2);
       base64Char (N.lor (N.shiftl (N.land a 3) 4) (N.shiftr b 4));
       base64Char (N.shiftl (N.land b 15) 2);
       61%N]
  | a :: b :: c :: rest =>
      [base64Char (N.shiftr a 2);
       base64Char (N.lor (N.shiftl (N.land a 3) 4) (N.shiftr b 4));
       base64Char (N.lor (N.shiftl (N.land b 15) 2) (N.shiftr c 6));
       base64Char (N.land c 63)] ++ base64 rest
  end.

(** What a call returns: a string, or the [InvalidCharacterError] that
    [btoa] throws. *)
Inductive KeyResult : Type :=
| Key (k : JsString)
| InvalidCharacterError.

(** The host's [btoa]: it throws when a code unit is above 255. *)
Definition btoa (data : JsString) : KeyResult :=
  if forallb (fun c => (c <=? 255)%N) data then Key (base64 data)
  else InvalidCharacterError.

(** The class [[a-zA-Z0-9]]. *)
Definition isAlphanumeric (c : N) : bool :=
  ((48 <=? c)%N && (c <=? 57)%N) ||
  ((65 <=? c)%N && (c <=? 90)%N) ||
  ((97 <=? c)%N && (c <=? 122)%N).

(** The template literal [`${origin}-${destination}-${checkpoints.length}`]. *)
Definition routeKeyText {A : Type} (origin destination : JsString)
    (checkpoints : list A) : JsString :=
  origin ++ [45%N] ++ destination ++ [45%N] ++
  codeUnits (showNat (length checkpoints)).

Definition generateRouteKey {A : Type} (origin destination : JsString)
    (checkpoints : list A) : KeyResult :=
  match btoa (routeKeyText origin destination checkpoints) with
  | Key encoded => Key (filter isAlphanumeric encoded)
  | InvalidCharacterError => InvalidCharacterError
  end.

End Database.

(** ** src/utils/audio.js *)

Module Audio.

Record Voice : Type := mkVoice {
  name : string;
  lang : string;
  localService : bool;
  isDefault : bool
}.

(** The [options] argument of [speak]; a property may be missing. *)
Record SpeakOptions : Type := mkOptions {
  rate : option R;
  pitch : option R;
  volume : option R
}.

(** A [SpeechSynthesisUtterance] with the properties [speak] sets. *)
Record Utterance : Type := mkUtterance {
  utteranceText : string;
  utteranceVoice : option Voice;
  utteranceRate : R;
  utterancePitch : R;
  utteranceVolume : R
}.

(** Calls that leave the service: the synthesis engine, the console, the
    registered callbacks (named by a handle) and the promise of [speak]. *)
Inductive Call : Type :=
| SynthesisSpeak (u : Utterance)
| SynthesisCancel
| SynthesisPause
| SynthesisResume
| ConsoleLog (text : string)
| ConsoleError (text : string)
| InvokeOnEnd (callback : nat)
| InvokeOnError (callback : nat) (error : string)
| Resolve
| Reject (message : string).

(** The fields of the [AudioService] object and the calls made so far. *)
Record Service : Type := mkService {
  isPlaying : bool;
  isPaused : bool;
  currentUtterance : option Utterance;
  voices : list Voice;
  selectedVoice : option Voice;
  onEndCallback : option nat;
  onErrorCallback : option nat;
  calls : list Call
}.

Definition setPlaying (playing paused : bool) (s : Service) : Service :=
  {| isPlaying := playing; isPaused := paused;
     currentUtterance := currentUtterance s; voices := voices s;
     selectedVoice := selectedVoice s; onEndCallback := onEndCallback s;
     onErrorCallback := onErrorCallback s; calls := calls s |}.

Definition setPaused (paused : bool) (s : Service) : Service :=
  setPlaying (isPlaying s) paused s.

Definition setCurrentUtterance (u : option Utterance) (s : Service) : Service :=
  {| isPlaying := isPlaying s; isPaused := isPaused s;
     currentUtterance := u; voices := voices s;
     selectedVoice := selectedVoice s; onEndCallback := onEndCallback s;
     onErrorCallback := onErrorCallback s; calls := calls s |}.

Definition setVoices (v : list Voice) (s : Service) : Service :=
  {| isPlaying := isPlaying s; isPaused := isPaused s;
     currentUtterance := currentUtterance s; voices := v;
     selectedVoice := selectedVoice s; onEndCallback := onEndCallback s;
     onErrorCallback := onErrorCallback s; calls := calls s |}.

Definition setSelectedVoice (v : option Voice) (s : Service) : Service :=
  {| isPlaying := isPlaying s; isPaused := isPaused s;
     currentUtterance := currentUtterance s; voices := voices s;
     selectedVoice := v; onEndCallback := onEndCallback s;
     onErrorCallback := onErrorCallback s; calls := calls s |}.

Definition call (c : Call) (s : Service) : Service :=
  {| isPlaying := isPlaying s; isPaused := isPaused s;
     currentUtterance := currentUtterance s; voices := voices s;
     selectedVoice := selectedVoice s; onEndCallback := onEndCallback s;
     onErrorCallback := onErrorCallback s; calls := calls s ++ [c] |}.

(** [loadVoices]; [hostVoices] is what [synthesis.getVoices()] returns. *)
Definition loadVoices (hostVoices : list Voice) (s : Service) : Service :=
  let s1 := setVoices hostVoices s in
  match selectedVoice s1, voices s1 with
  | None, first :: _ =>
      let englishVoices :=
        filter (fun voice => String.prefix "en" (lang voice)) (voices s1) in
      match englishVoices with
      | english :: _ => setSelectedVoice (Some english) s1
      | [] => setSelectedVoice (Some first) s1
      end
  | _, _ => s1
  end.

Definition setVoice (voiceName : string) (s : Service) : bool * Service :=
  match find (fun v => String.eqb (name v) voiceName) (voices s) with
  | Some voice => (true, setSelectedVoice (Some voice) s)
  | None => (false, s)
  end.

Definition stop (s : Service) : bool * Service :=
  if isPlaying s then
    (true, setCurrentUtterance None (setPlaying false false (call SynthesisCancel s)))
  else (false, s).

Definition pause (s : Service) : bool * Service :=
  if isPlaying s && negb (isPaused s) then (true, call SynthesisPause s)
  else (false, s).

Definition resume (s : Service) : bool * Service :=
  if isPlaying s && isPaused s then (true, call SynthesisResume s)
  else (false, s).

(** [value || fallback] on an optional number: a missing value and 0 are
    falsy. *)
Definition orElse (value : option R) (fallback : R) : R :=
  match value with
  | Some x => if Req_dec_T x 0 then fallback else x
  | None => fallback
  end.

(** The body of the promise of [speak], up to [synthesis.speak]. *)
Definition speak (text : string) (options : SpeakOptions) (s : Service) : Service :=
  let s1 := snd (stop s) in
  let utterance :=
    {| utteranceText := text;
       utteranceVoice := selectedVoice s1;
       utteranceRate := orElse (rate options) 0.9;
       utterancePitch := orElse (pitch options) 1;
       utteranceVolume := orElse (volume options) 1 |} in
  call (SynthesisSpeak utterance) (setCurrentUtterance (Some utterance) s1).

(** The event handlers that [speak] installs on the utterance. *)
Definition onstart (s : Service) : Service :=
  call (ConsoleLog "Speech started") (setPlaying true false s).

Definition onend (s : Service) : Service :=
  let s1 := setCurrentUtterance None (setPlaying false false s) in
  let s2 := call (ConsoleLog "Speech ended") s1 in
  let s3 := match onEndCallback s2 with
            | Some callback => call (InvokeOnEnd callback) s2
            | None => s2
            end in
  call Resolve s3.

Definition onerror (error : string) (s : Service) : Service :=
  let s1 := setCurrentUtterance None (setPlaying false false s) in
  let s2 := call (ConsoleError "Speech error:") s1 in
  let s3 := match onErrorCallback s2 with
            | Some callback => call (InvokeOnError callback error) s2
            | None => s2
            end in
  call (Reject ("Speech synthesis error: " ++ error)%string) s3.

Definition onpause (s : Service) : Service :=
  call (ConsoleLog "Speech paused") (setPaused true s).

Definition onresume (s : Service) : Service :=
  call (ConsoleLog "Speech resumed") (setPaused false s).

(** [text.split(" ")]: the pieces between single spaces. *)
Fixpoint splitOnSpace (text : string) : list string :=
  match text with
  | EmptyString => [EmptyString]
  | String c rest =>
      if Ascii.eqb c " "%char then EmptyString :: splitOnSpace rest
      else match splitOnSpace rest with
           | piece :: pieces => String c piece :: pieces
           | [] => [String c EmptyString]
           end
  end.

(** [estimateReadingTime(text, wpm)], in minutes; [None] stands for the
    [Infinity] that a rate of 0 words per minute gives. *)
Definition estimateReadingTime (text : string) (wpm : nat) : option nat :=
  let words := length (splitOnSpace text) in
  if wpm =? 0 then None else Some ((words + wpm - 1) / wpm).

End Audio.

(** ** The audio player component and the application around it *)

Module Player.

(** The [useState] cells of [AudioPlayer] that its handlers write. *)
Record State : Type := mkState {
  isPlaying : bool;
  isPaused : bool;
  playbackRate : R;
  volume : R
}.

Definition setIsPlaying (v : bool) (s : State) : State :=
  {| isPlaying := v; isPaused := isPaused s;
     playbackRate := playbackRate s; volume := volume s |}.

Definition setIsPaused (v : bool) (s : State) : State :=
  {| isPlaying := isPlaying s; isPaused := v;
     playbackRate := playbackRate s; volume := volume s |}.

(** The application, the audio service singleton and the player. *)
Record World : Type := mkWorld {
  app : App.State;
  service : Audio.Service;
  player : State
}.

Definition updApp (f : App.State -> App.State) (w : World) : World :=
  {| app := f (app w); service := service w; player := player w |}.

Definition updPlayer (f : State -> State) (w : World) : World :=
  {| app := app w; service := service w; player := f (player w) |}.

(** A method of the service, called on the singleton. *)
Definition callService (method : Audio.Service -> bool * Audio.Service)
    (w : World) : bool * World :=
  let '(result, svc) := method (service w) in
  (result, {| app := app w; service := svc; player := player w |}).

Definition pausePlayback (w : World) : World :=
  let '(ok, w1) := callService Audio.pause w in
  if ok then updPlayer (setIsPaused true) w1 else w1.

Definition resumePlayback (w : World) : World :=
  let '(ok, w1) := callService Audio.resume w in
  if ok then updPlayer (setIsPaused false) w1 else w1.

Definition stopPlayback (w : World) : World :=
  let '(ok, w1) := callService Audio.stop w in
  if ok then updPlayer (setIsPaused false) (updPlayer (setIsPlaying false) w1)
  else w1.

(** [handlePreviousChapter] and [handleNextChapter] as created by the render
    of [render]; [onChapterChange] is [setCurrentChapter] of the
    application. *)
Definition handlePreviousChapter (render : App.State) (w : World) : World :=
  if 0 <? App.currentChapter render then
    updApp (App.setCurrentChapter (App.currentChapter render - 1)) (stopPlayback w)
  else w.

Definition handleNextChapter (render : App.State) (w : World) : World :=
  match App.storyChapters (App.story render) with
  | Some chs =>
      if App.currentChapter render <? length chs - 1 then
        updApp (App.setCurrentChapter (App.currentChapter render + 1))
          (stopPlayback w)
      else w
  | None => w
  end.

(** [resetApp] of the application. *)
Definition resetApp (w : World) : World :=
  snd (callService Audio.stop (updApp App.resetAppState w)).

(** What can happen to the application between two renders. *)
Inductive Event : Type :=
| RouteSelected (routeData : App.RouteData)
| CheckpointReached (checkpointIndex : nat)
| PositionUpdate (position : Position)
| PreviousChapter
| NextChapter
| Navigate (screen : App.Screen)
| ReportError (message : string)
| Reset.

(** One event, handled by the handlers of the committed state. *)
Definition step (w : World) (e : Event) : World :=
  match e with
  | RouteSelected routeData => updApp (App.handleRouteSelected routeData) w
  | CheckpointReached i => updApp (App.handleCheckpointReached (app w) i) w
  | PositionUpdate p => updApp (App.setCurrentPosition (Some p)) w
  | PreviousChapter => handlePreviousChapter (app w) w
  | NextChapter => handleNextChapter (app w) w
  | Navigate screen => updApp (App.handleNavigation screen) w
  | ReportError message => updApp (App.handleError message) w
  | Reset => resetApp w
  end.

Definition run (events : list Event) (w : World) : World :=
  fold_left step events w.

End Player.

(** ** src/components/TripSummary.jsx: the summary card and the
    directions-based map view *)

Module TripSummary.

Local Open Scope R_scope.

(** [x % y] on numbers: the remainder has the sign of [x]. *)
Definition remainder (x y : R) : R :=
  let q := x / y in
  x - y * IZR (if Rle_dec 0 q then Zfloor q else Zceil q).

(** Template-literal conversion of an integer. *)
Definition showZ (z : Z) : string :=
  match z with
  | Zneg p => ("-" ++ showNat (Pos.to_nat p))%string
  | _ => showNat (Z.to_nat z)
  end.

(** The [hours] and [mins] of [formatDuration]. *)
Definition durationParts (minutes : R) : Z * Z :=
  (Zfloor (minutes / 60), Zfloor (remainder minutes 60)).

Definition formatDuration (minutes : R) : string :=
  let '(hours, mins) := durationParts minutes in
  if (0 <? hours)%Z then (showZ hours ++ "h " ++ showZ mins ++ "m")%string
  else (showZ mins ++ "m")%string.

End TripSummary.

Module MapView.

Import LeafletMaps.

Local Open Scope R_scope.

(** The [routePath.forEach] of [checkRouteAdherence]: [None] is the initial
    [Infinity] of [minDistance]. *)
Definition minDistanceTo (currentPosition : Position) (routePath : list LatLng)
  : option R :=
  forEach
    (fun point _ minDistance =>
       let distance :=
         calculateDistance (lat currentPosition) (lng currentPosition)
           (lat point) (lng point) in
       match minDistance with
       | None => Some distance
       | Some m => Some (Rmin m distance)
       end)
    routePath None.

(** The value of [isOffRoute] after [checkRouteAdherence]; [routeDetails] is
    the [overview_path] of the first route, when there is one. *)
Definition checkRouteAdherence (currentPosition : option Position)
    (routeDetails : option (list LatLng)) (isOffRoute : bool) : bool :=
  match currentPosition, routeDetails with
  | Some here, Some routePath =>
      match minDistanceTo here routePath with
      | None => true
      | Some m => if Rgt_dec m 100 then true else false
      end
  | _, _ => isOffRoute
  end.

End MapView.

(** ** Vocabulary of the statements *)

(** A route that carries the geometry [coords]. *)
Definition routeOf (coords : list Coordinate) : Route :=
  {| geometry := Some {| coordinates := Some coords |};
     distance := 0%R; duration := 0%R;
     destCoords := {| lat := 0%R; lng := 0%R |} |}.

(** The checkpoint pushed for loop counter [i] from coordinate [c]. *)
Definition pushed (c : Coordinate) (i : nat) : Checkpoint :=
  {| position := {| lat := snd c; lng := fst c |};
     description := ("Checkpoint " ++ showNat i)%string;
     index := i |}.

(** [cps] holds one checkpoint per counter value [1..n], in order, each
    placed at [coords[i * interval]]. *)
Definition evenlySpaced (coords : list Coordinate) (interval n : nat)
    (cps : list Checkpoint) : Prop :=
  length cps = n /\
  map index cps = seq 1 n /\
  forall i, 1 <= i <= n ->
    exists c, nth_error coords (i * interval) = Some c /\
              nth_error cps (i - 1) = Some (pushed c i).

(** Degrees to radians, the conversion [x * Math.PI / 180]. *)
Definition rad (deg : R) : R := (deg * PI / 180)%R.

(** The point of the unit sphere at latitude [la] and longitude [lo]. *)
Definition ux (la lo : R) : R := (cos (rad la) * cos (rad lo))%R.
Definition uy (la lo : R) : R := (cos (rad la) * sin (rad lo))%R.
Definition uz (la lo : R) : R := sin (rad la).

(** Squared length of the straight segment between two such points. *)
Definition chord2 (lat1 lon1 lat2 lon2 : R) : R :=
  ((ux lat1 lon1 - ux lat2 lon2) * (ux lat1 lon1 - ux lat2 lon2) +
   (uy lat1 lon1 - uy lat2 lon2) * (uy lat1 lon1 - uy lat2 lon2) +
   (uz lat1 lon1 - uz lat2 lon2) * (uz lat1 lon1 - uz lat2 lon2))%R.

(** No closing bracket occurs in [s]. *)
Fixpoint noClosing (s : string) : bool :=
  match s with
  | EmptyString => true
  | String c rest => negb (Ascii.eqb c ">"%char) && noClosing rest
  end.

(** No opening bracket occurs in [s]. *)
Fixpoint noOpening (s : string) : bool :=
  match s with
  | EmptyString => true
  | String c rest => negb (Ascii.eqb c "<"%char) && noOpening rest
  end.

(** [s] has no match of [<[^>]*>]: its first opening bracket, if any, is
    not followed by a closing one. *)
Fixpoint tagFree (s : string) : bool :=
  match s with
  | EmptyString => true
  | String c rest => if Ascii.eqb c "<"%char then noClosing rest else tagFree rest
  end.


(** The checkpoint pushed from [step] with the given [index]. *)
Definition stepCheckpoint (step : Maps.Step) (i : nat) : Maps.Checkpoint :=
  {| Maps.position := Maps.end_location step;
     Maps.description := Maps.stripTags (Maps.instructions step);
     Maps.distance := Maps.distanceText step;
     Maps.index := i |}.

(** A directions result with a single route. *)
Definition directions (l : list Maps.Leg) : Maps.DirectionsResult :=
  {| Maps.routes := [ {| Maps.legs := l |} ] |}.

(** Two steps of a leg, with markup in their instructions. *)
Definition twoSteps : list Maps.Step :=
  [ {| Maps.end_location := {| lat := 1%R; lng := 1%R |};
       Maps.instructions := "Head <b>north</b>"%string;
       Maps.distanceText := "10 m"%string |};
    {| Maps.end_location := {| lat := 2%R; lng := 2%R |};
       Maps.instructions := "Turn <b>left</b>"%string;
       Maps.distanceText := "20 m"%string |} ].

(** The paragraphs that [parseTextToChapters] gives to chapter [i] (counted
    from 0) out of [numChapters], and the content it makes of them. *)
Definition chapterGroup (paragraphs : list string) (numChapters i : nat)
  : list string :=
  let per := Gemini.ceilDiv (length paragraphs) numChapters in
  Gemini.slice paragraphs (i * per) (Nat.min ((i + 1) * per) (length paragraphs)).

Definition groupContent (group : list string) : string :=
  let joined := String.concat Gemini.paragraphBreak group in
  if String.eqb joined EmptyString
  then "Continue your journey as the story unfolds..."%string
  else joined.

(** The calls made to the synthesis engine, without the console, the
    callbacks and the promise. *)
Definition synthesisCalls (l : list Audio.Call) : list Audio.Call :=
  filter (fun c => match c with
                   | Audio.SynthesisSpeak _ | Audio.SynthesisCancel
                   | Audio.SynthesisPause | Audio.SynthesisResume => true
                   | _ => false
                   end) l.

(** The current chapter designates a chapter of the story, when the story
    has chapters. *)
Definition chapterInBounds (s : App.State) : Prop :=
  forall chs,
    App.storyChapters (App.story s) = Some chs ->
    chs <> [] ->
    App.currentChapter s < length chs.

(** A service as the constructor leaves it, before any voice is loaded. *)
Definition freshService : Audio.Service :=
  {| Audio.isPlaying := false; Audio.isPaused := false;
     Audio.currentUtterance := None; Audio.voices := [];
     Audio.selectedVoice := None; Audio.onEndCallback := None;
     Audio.onErrorCallback := None; Audio.calls := [] |}.

Definition noOptions : Audio.SpeakOptions :=
  {| Audio.rate := None; Audio.pitch := None; Audio.volume := None |}.

Definition englishVoice : Audio.Voice :=
  {| Audio.name := "Samantha"; Audio.lang := "en-US";
     Audio.localService := true; Audio.isDefault := false |}.

Definition frenchVoice : Audio.Voice :=
  {| Audio.name := "Thomas"; Audio.lang := "fr-FR";
     Audio.localService := true; Audio.isDefault := true |}.

(** The world in which the application starts. *)
Definition initialWorld : Player.World :=
  {| Player.app := App.initialState;
     Player.service := freshService;
     Player.player :=
       {| Player.isPlaying := false; Player.isPaused := false;
          Player.playbackRate := 0.9%R; Player.volume := 1%R |} |}.

(** The test [distance <= 50] of the proximity effect. *)
Definition withinReach (here : Position) (cp : Checkpoint) : bool :=
  if Rle_dec (LeafletMaps.calculateDistance (lat here) (lng here)
                (lat (position cp)) (lng (position cp))) 50
  then true else false.

(** The array positions, from [index] on, of the checkpoints that are
    within reach of [here] and not in [completed]. *)
Fixpoint reachedFrom (here : Position) (completed : list nat)
    (cps : list Checkpoint) (index : nat) : list nat :=
  match cps with
  | [] => []
  | cp :: rest =>
      if negb (includes completed index) && withinReach here cp
      then index :: reachedFrom here completed rest (S index)
      else reachedFrom here completed rest (S index)
  end.

(** The completed checkpoints are array positions of checkpoints, each
    recorded once. *)
Definition completedValid (s : App.State) : Prop :=
  NoDup (App.completedCheckpoints s) /\
  forall i, In i (App.completedCheckpoints s) -> i < length (App.checkpoints s).

(** The application after a run of position samples, each followed by the
    proximity effect and the commit of its updates. *)
Definition afterSamples (samples : list Position) (s : App.State) : App.State :=
  fold_left
    (fun s p =>
       fst (LeafletMapView.proximityEffect (App.setCurrentPosition (Some p) s)))
    samples s.

(** The application when a route with the given checkpoints and story has
    just been selected. *)
Definition routeSelected (route : Route) (cps : list Checkpoint)
    (st : option Story) : App.State :=
  App.handleRouteSelected
    {| App.rd_route := route; App.rd_checkpoints := cps; App.rd_story := st |}
    App.initialState.

(** The haversine distances between consecutive samples, in the order the
    position callback computes them: [stepsFrom] starts from the latitude
    and longitude of the previous sample. *)
Fixpoint stepsFrom (la lo : R) (samples : list Geolocation.GeolocationPosition)
  : list R :=
  match samples with
  | [] => []
  | q :: rest =>
      LeafletMaps.calculateDistance la lo
        (Geolocation.latitude (Geolocation.coords q))
        (Geolocation.longitude (Geolocation.coords q)) ::
      stepsFrom (Geolocation.latitude (Geolocation.coords q))
                (Geolocation.longitude (Geolocation.coords q)) rest
  end.

Definition stepDistances (samples : list Geolocation.GeolocationPosition)
  : list R :=
  match samples with
  | [] => []
  | p :: rest =>
      stepsFrom (Geolocation.latitude (Geolocation.coords p))
                (Geolocation.longitude (Geolocation.coords p)) rest
  end.

(** The updates [prev => prev + distance / 1000] applied in order: every
    step is divided by 1000 and added to the total so far. *)
Definition addKm (total : R) (steps : list R) : R :=
  fold_left (fun prev distance => (prev + distance / 1000)%R) steps total.


(** ** The scenario of a 20-point route with four checkpoints *)

Module Scenario.

Local Open Scope R_scope.

Definition origin : LatLng := {| lat := 10.776; lng := 106.700 |}.
Definition destination : LatLng := {| lat := 10.780; lng := 106.705 |}.

(** Point [k] of 20 evenly spaced points from [origin] to [destination],
    as a GeoJSON pair. *)
Definition point (k : nat) : Coordinate :=
  (lng origin + INR k * ((lng destination - lng origin) / 19),
   lat origin + INR k * ((lat destination - lat origin) / 19)).

Definition pointLat (k : nat) : R := snd (point k).
Definition pointLng (k : nat) : R := fst (point k).

Definition points : list Coordinate := map point (seq 0 20).

Definition walk : Route :=
  {| geometry := Some {| coordinates := Some points |};
     distance := 0.7; duration := 9; destCoords := destination |}.

Definition plannedCheckpoints : list Checkpoint :=
  match LeafletMaps.generateCheckpoints walk 4 with
  | Normal cps => cps
  | Throw _ => []
  end.

Definition narration : Story :=
  Gemini.generateFallbackStory "Origin" "Destination" plannedCheckpoints.

(** The application once the route is selected with story [st] and tracking
    has started. *)
Definition walkingWith (st : option Story) : LeafletMapView.World :=
  LeafletMapView.startTracking true 0 1
    {| LeafletMapView.app :=
         App.handleRouteSelected
           {| App.rd_route := walk;
              App.rd_checkpoints := plannedCheckpoints;
              App.rd_story := st |}
           App.initialState;
       LeafletMapView.view := LeafletMapView.initialState;
       LeafletMapView.effects := [] |}.

(** The walk narrated by the fallback story. *)
Definition walking : LeafletMapView.World := walkingWith (Some narration).

End Scenario.

(** ** Sample inputs *)

Definition sixPoints : list Coordinate :=
  [(0, 0); (1, 10); (2, 20); (3, 30); (4, 40); (5, 50)]%R.

Definition threePoints : list Coordinate := [(0, 0); (1, 10); (2, 20)]%R.

Definition noGeometry : Route :=
  {| geometry := None; distance := 0%R; duration := 0%R;
     destCoords := {| lat := 0%R; lng := 0%R |} |}.

(** A position sample at the given latitude and longitude. *)
Definition sampleAt (la lo : R) : Geolocation.GeolocationPosition :=
  {| Geolocation.coords :=
       {| Geolocation.latitude := la; Geolocation.longitude := lo;
          Geolocation.accuracy := 10%R |};
     Geolocation.timestamp := 0%R |}.

(** The component right after [startTracking] on mount. *)
Definition trackingStarted : LeafletMapView.World :=
  LeafletMapView.startTracking true 0%R 1
    {| LeafletMapView.app := App.initialState;
       LeafletMapView.view := LeafletMapView.initialState;
       LeafletMapView.effects := [] |}.

(** A story of five chapters, as bound to four checkpoints. *)
Definition fiveChapters : Story :=
  Gemini.generateFallbackStory "Origin" "Destination"
    (map (pushed (0%R, 0%R)) [1; 2; 3; 4]).

(** The application state of a walk narrated by [fiveChapters]. *)
Definition walkingState (completed : list nat) (chapter : nat) : App.State :=
  {| App.currentScreen := App.Walking; App.route := None;
     App.story := Some fiveChapters; App.currentPosition := None;
     App.checkpoints := map (pushed (0%R, 0%R)) [1; 2; 3; 4];
     App.completedCheckpoints := completed; App.currentChapter := chapter;
     App.isLoading := false; App.error := None |}.

(** A position fix at the given latitude and longitude. *)
Definition positionAt (la lo : R) : Position :=
  {| latlng := {| lat := la; lng := lo |}; accuracy := 10%R; timestamp := 0%R |}.

(** The walk of the scenario, narrated, rendered with the walker at
    point 8. *)
Definition atPoint8 : App.State :=
  App.setCurrentPosition
    (Some (positionAt (Scenario.pointLat 8) (Scenario.pointLng 8)))
    (routeSelected Scenario.walk Scenario.plannedCheckpoints
       (Some Scenario.narration)).

(** Four checkpoints planned at the same point, as on a route of few
    points, rendered with the walker on that point. *)
Definition atSharedPoint : App.State :=
  App.setCurrentPosition (Some (positionAt 0 0)) (walkingState [] 0).

(** A route selected when the four checkpoints of the previous walk are
    completed: the new route has two checkpoints. *)
Definition secondRoute : App.RouteData :=
  {| App.rd_route := routeOf threePoints;
     App.rd_checkpoints := map (pushed (0%R, 0%R)) [1; 2];
     App.rd_story := Some fiveChapters |}.

(** A host [split] on a separator that is not empty, and a host [trim] of
    spaces, tabs and line ends, to run [parseTextToChapters] on a text. *)
Fixpoint splitFrom (separator : string) (skip : nat) (current text : string)
  : list string :=
  match text with
  | EmptyString => [current]
  | String c rest =>
      match skip with
      | S skip' => splitFrom separator skip' current rest
      | O =>
          if String.prefix separator text
          then current ::
               splitFrom separator (String.length separator - 1) EmptyString rest
          else splitFrom separator 0 (current ++ String c EmptyString)%string rest
      end
  end.

Definition splitOn (text separator : string) : list string :=
  splitFrom separator 0 EmptyString text.

Definition isSpace (c : ascii) : bool :=
  let n := nat_of_ascii c in
  (n =? 32) || (n =? 9) || (n =? 10) || (n =? 13).

Fixpoint trimStart (l : list ascii) : list ascii :=
  match l with
  | c :: rest => if isSpace c then trimStart rest else l
  | [] => []
  end.

Definition trimSpaces (text : string) : string :=
  string_of_list_ascii
    (rev (trimStart (rev (trimStart (list_ascii_of_string text))))).

Definition firstParagraph : string :=
  "The old bridge creaked as the morning mist rolled over the quiet river.".

Definition secondParagraph : string :=
  "Further on, a row of lanterns marked the way to the market square.".

Definition thirdParagraph : string :=
  "At the end of the road the harbour opened, wide and bright with sails.".

(** A generated text: three paragraphs and a short heading, which the
    length filter drops. *)
Definition storyText : string :=
  ("Chapter notes" ++ Gemini.paragraphBreak ++
   firstParagraph ++ Gemini.paragraphBreak ++
   " " ++ secondParagraph ++ Gemini.paragraphBreak ++
   thirdParagraph)%string.

(** * Properties *)

(** ** Route/checkpoint planner *)

Section Planner.

Import LeafletMaps.

Lemma checkpointsLoop_all_pushed coords interval :
  forall steps i acc,
    (forall k, k < steps -> (i + k) * interval < length coords) ->
    exists new,
      checkpointsLoop coords (length coords) interval steps i acc = Normal (acc ++ new) /\
      length new = steps /\
      map index new = seq i steps /\
      forall k, k < steps ->
        exists c, nth_error coords ((i + k) * interval) = Some c /\
                  nth_error new k = Some (pushed c (i + k)).
Proof.
  induction steps as [|steps IH]; intros i acc Hin.
  - exists []. simpl. rewrite app_nil_r. repeat split; auto. intros k Hk; lia.
  - simpl.
    assert (H0 : i * interval < length coords).
    { specialize (Hin 0). rewrite Nat.add_0_r in Hin. apply Hin. lia. }
    apply Nat.ltb_lt in H0 as H0b. rewrite H0b.
    destruct (nth_error coords (i * interval)) as [[lng0 lat0]|] eqn:Hnth.
    2:{ apply nth_error_None in Hnth. lia. }
    destruct (IH (S i) (acc ++ [pushed (lng0, lat0) i])) as (new & Hrun & Hlen & Hidx & Hpos).
    { intros k Hk. replace (S i + k) with (i + S k) by lia. apply Hin. lia. }
    exists (pushed (lng0, lat0) i :: new).
    unfold pushed in Hrun at 1. simpl in Hrun. rewrite Hrun.
    rewrite <- app_assoc. simpl. repeat split.
    + now rewrite Hlen.
    + now rewrite Hidx.
    + intros [|k] Hk.
      * rewrite Nat.add_0_r. exists (lng0, lat0). split; auto.
      * destruct (Hpos k) as (c & Hc & Hn); [lia|].
        replace (i + S k) with (S i + k) by lia.
        exists c. split; auto.
Qed.

Lemma planner_loop_evenlySpaced route g coords n :
  geometry route = Some g ->
  coordinates g = Some coords ->
  (forall i, 1 <= i <= n -> i * (length coords / (n + 1)) < length coords) ->
  exists cps,
    generateCheckpoints route n = Normal cps /\
    evenlySpaced coords (length coords / (n + 1)) n cps.
Proof.
  intros Hg Hc Hin. unfold generateCheckpoints. rewrite Hg, Hc.
  destruct (checkpointsLoop_all_pushed coords (length coords / (n + 1)) n 1 [])
    as (new & Hrun & Hlen & Hidx & Hpos).
  { intros k Hk. apply Hin. lia. }
  exists new. split; [exact Hrun|].
  repeat split; auto.
  intros i Hi. destruct (Hpos (i - 1)) as (c & Hc' & Hn); [lia|].
  replace (1 + (i - 1)) with i in * by lia.
  exists c. split; auto.
Qed.

(** Every counter value stays inside a non-empty geometry. *)
Lemma pointIndex_in_range totalPoints n i :
  0 < totalPoints -> i <= n -> i * (totalPoints / (n + 1)) < totalPoints.
Proof.
  intros Hpos Hi.
  pose proof (Nat.Div0.mul_div_le totalPoints (n + 1)) as Hdiv.
  destruct (Nat.eq_dec (totalPoints / (n + 1)) 0) as [-> | Hnz]; [lia|].
  assert (i * (totalPoints / (n + 1)) <= n * (totalPoints / (n + 1)))
    by (apply Nat.mul_le_mono_r; lia).
  nia.
Qed.

(** C1. For a geometry [coords] and a requested count [n] such that
    [i * floor(totalPoints / (n + 1)) < totalPoints] for every [i] in [1..n],
    [generateCheckpoints] returns normally exactly [n] checkpoints whose
    [index] fields are [1, ..., n] in this order, checkpoint [i] holding the
    position of [coords[i * floor(totalPoints / (n + 1))]]; a geometry of at
    least six points with [n = 4] is such a case. *)
Theorem generateCheckpoints_even_spacing route g coords :
  geometry route = Some g ->
  coordinates g = Some coords ->
  (forall n,
      (forall i, 1 <= i <= n -> i * (length coords / (n + 1)) < length coords) ->
      exists cps,
        generateCheckpoints route n = Normal cps /\
        evenlySpaced coords (length coords / (n + 1)) n cps) /\
  (6 <= length coords ->
   exists cps,
     generateCheckpoints route 4 = Normal cps /\
     evenlySpaced coords (length coords / 5) 4 cps).
Proof.
  intros Hg Hc. split.
  - intros n Hin. now apply planner_loop_evenlySpaced with (g := g).
  - intros H6.
    apply (planner_loop_evenlySpaced route g coords 4 Hg Hc).
    intros i Hi. apply pointIndex_in_range; lia.
Qed.

Lemma generateCheckpoints_even_spacing_witness :
  exists cps,
    generateCheckpoints (routeOf sixPoints) 4 = Normal cps /\
    evenlySpaced sixPoints (length sixPoints / 5) 4 cps.
Proof.
  apply (proj2 (generateCheckpoints_even_spacing (routeOf sixPoints) _ sixPoints
                  eq_refl eq_refl)).
  simpl. lia.
Defined.

(** With three points and four requested checkpoints the interval is zero
    and every counter value selects [coords[0]]. *)
Lemma three_points_all_at_first route g c0 c1 c2 :
  geometry route = Some g ->
  coordinates g = Some [c0; c1; c2] ->
  generateCheckpoints route 4 =
  Normal [pushed c0 1; pushed c0 2; pushed c0 3; pushed c0 4].
Proof.
  intros Hg Hc. unfold generateCheckpoints. rewrite Hg, Hc.
  destruct c0 as [lng0 lat0]. reflexivity.
Qed.

(** C2, as stated, fails: on a three-point geometry the planner returns four
    checkpoints, not fewer. *)
Lemma generateCheckpoints_three_points_not_fewer :
  ~ (exists cps,
        generateCheckpoints (routeOf threePoints) 4 = Normal cps /\
        length cps < 4).
Proof.
  intros (cps & Hrun & Hlen).
  rewrite (three_points_all_at_first (routeOf threePoints) _ _ _ _
             eq_refl eq_refl) in Hrun.
  injection Hrun as <-. simpl in Hlen. lia.
Qed.

(** C2, amended. For a geometry of three points and four requested
    checkpoints, [generateCheckpoints] throws nothing and returns exactly
    four checkpoints, with [index] 1 to 4, all placed at [coords[0]]. *)
Theorem generateCheckpoints_three_points_degenerate route g coords :
  geometry route = Some g ->
  coordinates g = Some coords ->
  length coords = 3 ->
  exists c0 cps,
    nth_error coords 0 = Some c0 /\
    generateCheckpoints route 4 = Normal cps /\
    length cps = 4 /\
    cps = map (pushed c0) [1; 2; 3; 4].
Proof.
  intros Hg Hc Hlen.
  destruct coords as [|c0 [|c1 [|c2 [|c3 rest]]]]; simpl in Hlen; try discriminate.
  exists c0, (map (pushed c0) [1; 2; 3; 4]).
  split; [reflexivity|]. split; [|split; reflexivity].
  exact (three_points_all_at_first route g c0 c1 c2 Hg Hc).
Qed.

Lemma generateCheckpoints_three_points_degenerate_witness :
  exists c0 cps,
    nth_error threePoints 0 = Some c0 /\
    generateCheckpoints (routeOf threePoints) 4 = Normal cps /\
    length cps = 4 /\
    cps = map (pushed c0) [1; 2; 3; 4].
Proof.
  apply (generateCheckpoints_three_points_degenerate (routeOf threePoints) _
           threePoints eq_refl eq_refl).
  reflexivity.
Defined.

(** C10. When [route.geometry] or [route.geometry.coordinates] is missing,
    [generateCheckpoints] returns the empty array, without throwing, for
    every requested count. *)
Theorem generateCheckpoints_missing_geometry route n :
  geometry route = None \/
  (exists g, geometry route = Some g /\ coordinates g = None) ->
  generateCheckpoints route n = Normal [].
Proof.
  intros [Hg | (g & Hg & Hc)]; unfold generateCheckpoints; rewrite Hg.
  - reflexivity.
  - now rewrite Hc.
Qed.

Lemma generateCheckpoints_missing_geometry_witness :
  generateCheckpoints noGeometry 4 = Normal [].
Proof.
  apply (generateCheckpoints_missing_geometry noGeometry 4).
  left. reflexivity.
Defined.

End Planner.

(** ** Fallback story *)

Section FallbackStory.

Import Gemini.

(** The callback of [locations.forEach] appends one chapter for each index
    below [bound] and nothing afterwards. *)
Lemma forEach_chapters_numbers (locations : list string) (bound : nat) :
  forall (l : list string) (idx : nat) (acc : list Chapter),
    map chapterNumber
      (forEachFrom (fun location index chapters =>
                      if index <? bound then
                        chapters ++ [fallbackChapter locations location index]
                      else chapters) l idx acc) =
    map chapterNumber acc ++ seq (idx + 1) (Nat.min (length l) (bound - idx)).
Proof.
  induction l as [|location l IH]; intros idx acc; simpl.
  - now rewrite app_nil_r.
  - rewrite IH. destruct (idx <? bound) eqn:Hlt.
    + apply Nat.ltb_lt in Hlt.
      rewrite map_app, <- app_assoc. simpl. f_equal.
      replace (bound - idx) with (S (bound - S idx)) by lia.
      reflexivity.
    + apply Nat.ltb_ge in Hlt.
      replace (bound - S idx) with 0 by lia. replace (bound - idx) with 0 by lia.
      now rewrite !Nat.min_0_r.
Qed.

Example fallback_titles :
  option_map (map title)
    (chapters (generateFallbackStory "Quay" "Market" [pushed (0%R, 0%R) 1])) =
  Some ["Chapter 1: Journey to Checkpoint 1"%string;
        "Chapter 2: Journey to Market"%string].
Proof. reflexivity. Qed.

(** C7. Whatever the checkpoints, the fallback story has
    [checkpoints.length + 1] chapters, numbered from 1 in order. *)
Theorem generateFallbackStory_chapter_count origin destination
    (checkpoints : list Checkpoint) :
  exists chs,
    chapters (generateFallbackStory origin destination checkpoints) = Some chs /\
    length chs = length checkpoints + 1 /\
    map chapterNumber chs = seq 1 (length checkpoints + 1).
Proof.
  unfold generateFallbackStory. cbv zeta. eexists. split; [reflexivity|].
  set (locations := [origin] ++ map description checkpoints ++ [destination]).
  assert (Hlen : length locations = length checkpoints + 2).
  { unfold locations. rewrite !length_app, length_map. simpl. lia. }
  clearbody locations.
  assert (Hnum := forEach_chapters_numbers locations (length locations - 1)
                    locations 0 []).
  fold (forEach (fun location index chapters =>
                   if index <? length locations - 1 then
                     chapters ++ [fallbackChapter locations location index]
                   else chapters) locations []) in Hnum.
  change (map chapterNumber [] ++ ?x) with x in Hnum.
  replace (Nat.min (length locations) (length locations - 1 - 0))
    with (length checkpoints + 1) in Hnum by lia.
  split; [|exact Hnum].
  rewrite <- (length_map chapterNumber), Hnum. apply length_seq.
Qed.

End FallbackStory.

(** ** Narration sequencer *)

Section Sequencer.

Import App.

Lemma includes_In l x : includes l x = true <-> In x l.
Proof.
  unfold includes. rewrite existsb_exists. split.
  - intros (y & Hy & Heq). apply Nat.eqb_eq in Heq. now subst.
  - intros Hin. exists x. split; auto. apply Nat.eqb_refl.
Qed.

Lemma includes_not_In l x : includes l x = false <-> ~ In x l.
Proof.
  rewrite <- includes_In. destruct (includes l x); split; intuition congruence.
Qed.

(** Case analysis along the branches of [handleCheckpointReached]. *)
Ltac handler_cases render index :=
  unfold handleCheckpointReached;
  destruct (includes (completedCheckpoints render) index); simpl;
  [ reflexivity
  | destruct (storyChapters (story render)) as [?chs|];
    [ destruct (_ <? _); reflexivity | reflexivity ] ].

Lemma handleCheckpointReached_story render index pending :
  story (handleCheckpointReached render index pending) = story pending.
Proof. handler_cases render index. Qed.

Lemma handleCheckpointReached_completed render index pending :
  completedCheckpoints (handleCheckpointReached render index pending) =
  if includes (completedCheckpoints render) index
  then completedCheckpoints pending
  else completedCheckpoints pending ++ [index].
Proof. handler_cases render index. Qed.

Lemma handleCheckpointReached_chapter render index pending :
  currentChapter (handleCheckpointReached render index pending) =
  if includes (completedCheckpoints render) index then currentChapter pending
  else match storyChapters (story render) with
       | Some chs =>
           if index + 1 <? length chs then index + 1 else currentChapter pending
       | None => currentChapter pending
       end.
Proof. handler_cases render index. Qed.

Lemma onCheckpointReached_completed_already index s :
  In index (completedCheckpoints s) -> onCheckpointReached index s = s.
Proof.
  intros Hin. apply includes_In in Hin.
  unfold onCheckpointReached, handleCheckpointReached. now rewrite Hin.
Qed.

(** A call on an index that is not yet completed. *)
Lemma onCheckpointReached_fresh index s :
  ~ In index (completedCheckpoints s) ->
  completedCheckpoints (onCheckpointReached index s) =
    completedCheckpoints s ++ [index] /\
  story (onCheckpointReached index s) = story s /\
  currentChapter (onCheckpointReached index s) =
    match storyChapters (story s) with
    | Some chs => if index + 1 <? length chs then index + 1 else currentChapter s
    | None => currentChapter s
    end.
Proof.
  intros Hnot. apply includes_not_In in Hnot. unfold onCheckpointReached.
  rewrite handleCheckpointReached_completed, handleCheckpointReached_story,
    handleCheckpointReached_chapter, Hnot.
  auto.
Qed.

(** C3. A call [onCheckpointReached(index)] on an index that is not in the
    completed set adds it to the set and, when [index + 1] is within the
    chapter list, makes [index + 1] the current chapter (otherwise the
    chapter stays).  No order is enforced: a later call with a smaller index
    that is not yet completed moves the current chapter backward, to that
    index plus one. *)
Theorem onCheckpointReached_jumps s index :
  ~ In index (completedCheckpoints s) ->
  (In index (completedCheckpoints (onCheckpointReached index s)) /\
   completedCheckpoints (onCheckpointReached index s) =
     completedCheckpoints s ++ [index]) /\
  (forall chs,
      storyChapters (story s) = Some chs ->
      index + 1 < length chs ->
      currentChapter (onCheckpointReached index s) = index + 1 /\
      forall smaller,
        smaller < index ->
        ~ In smaller (completedCheckpoints s) ->
        currentChapter (onCheckpointReached smaller (onCheckpointReached index s)) =
          smaller + 1 /\
        currentChapter (onCheckpointReached smaller (onCheckpointReached index s)) <
          currentChapter (onCheckpointReached index s)) /\
  (storyChapters (story s) = None \/
   (exists chs, storyChapters (story s) = Some chs /\ length chs <= index + 1) ->
   currentChapter (onCheckpointReached index s) = currentChapter s).
Proof.
  intros Hnot.
  destruct (onCheckpointReached_fresh index s Hnot) as (Hc & Hs & Hch).
  split; [|split].
  - split; [|exact Hc]. rewrite Hc. apply in_or_app. right. now left.
  - intros chs Hchs Hin.
    rewrite Hchs in Hch. apply Nat.ltb_lt in Hin as Hinb. rewrite Hinb in Hch.
    split; [exact Hch|].
    intros smaller Hlt Hnot'.
    destruct (onCheckpointReached_fresh smaller (onCheckpointReached index s))
      as (_ & _ & Hch2).
    { rewrite Hc. intros Hx. apply in_app_or in Hx.
      destruct Hx as [Hx | [Hx | []]]; [auto | lia]. }
    rewrite Hs, Hchs in Hch2.
    assert (Hlt' : (smaller + 1 <? length chs) = true) by (apply Nat.ltb_lt; lia).
    rewrite Hlt' in Hch2. rewrite Hch2, Hch. lia.
  - intros [Hnone | (chs & Hchs & Hout)].
    + now rewrite Hnone in Hch.
    + rewrite Hchs in Hch. apply Nat.ltb_ge in Hout. now rewrite Hout in Hch.
Qed.

Lemma fiveChapters_chapters :
  exists chs, storyChapters (Some fiveChapters) = Some chs /\ length chs = 5.
Proof.
  eexists. split; reflexivity.
Qed.

Lemma onCheckpointReached_jumps_witness :
  currentChapter (onCheckpointReached 3 (walkingState [] 0)) = 4 /\
  currentChapter
    (onCheckpointReached 1 (onCheckpointReached 3 (walkingState [] 0))) = 2.
Proof.
  destruct fiveChapters_chapters as (chs & Hc & Hl).
  destruct (onCheckpointReached_jumps (walkingState [] 0) 3) as (_ & Hjump & _).
  - simpl. tauto.
  - destruct (Hjump chs Hc) as (H3 & Hback).
    + rewrite Hl. lia.
    + split; [exact H3|].
      apply (Hback 1); [lia | simpl; tauto].
Defined.

(** C4. Calling [onCheckpointReached(index)] twice leaves the same state as
    calling it once, and a call on an index that is already completed
    changes nothing.  Two calls made by the handler of one and the same
    render agree with one call on the completed set and on the current
    chapter. *)
Theorem onCheckpointReached_idempotent s index :
  onCheckpointReached index (onCheckpointReached index s) =
    onCheckpointReached index s /\
  (In index (completedCheckpoints s) -> onCheckpointReached index s = s) /\
  (forall x,
      In x (completedCheckpoints
              (handleCheckpointReached s index (handleCheckpointReached s index s)))
      <-> In x (completedCheckpoints (onCheckpointReached index s))) /\
  currentChapter (handleCheckpointReached s index (handleCheckpointReached s index s)) =
    currentChapter (onCheckpointReached index s).
Proof.
  split; [|split; [|split]].
  - destruct (in_dec Nat.eq_dec index (completedCheckpoints s)) as [Hin | Hnot].
    + now rewrite !(onCheckpointReached_completed_already index s Hin).
    + apply onCheckpointReached_completed_already.
      destruct (onCheckpointReached_fresh index s Hnot) as (Hc & _).
      rewrite Hc. apply in_or_app. right. now left.
  - apply onCheckpointReached_completed_already.
  - intros x. unfold onCheckpointReached.
    rewrite !handleCheckpointReached_completed.
    destruct (includes (completedCheckpoints s) index); [tauto|].
    rewrite !in_app_iff. tauto.
  - unfold onCheckpointReached. rewrite !handleCheckpointReached_chapter.
    destruct (includes (completedCheckpoints s) index); [reflexivity|].
    destruct (storyChapters (story s)) as [chs|]; [|reflexivity].
    destruct (_ <? _); reflexivity.
Qed.

Lemma onCheckpointReached_idempotent_witness :
  onCheckpointReached 2 (walkingState [2] 3) = walkingState [2] 3.
Proof.
  apply (proj1 (proj2 (onCheckpointReached_idempotent (walkingState [2] 3) 2))).
  simpl. tauto.
Defined.

End Sequencer.

(** ** Geospatial utilities *)

Section Geospatial.

Import LeafletMaps.

Local Open Scope R_scope.

(** *** [Math.atan2] on the first quadrant *)

Lemma atan2_nonneg_range y x :
  0 <= y -> 0 <= x -> 0 <= atan2 y x <= PI / 2.
Proof.
  intros Hy Hx. pose proof PI_RGT_0 as Hpi. unfold atan2.
  destruct (Rlt_dec 0 x) as [Hpos | Hnpos].
  - pose proof (atan_bound (y / x)) as Hb.
    split; [|lra].
    destruct (Req_dec y 0) as [-> | Hne].
    + unfold Rdiv. rewrite Rmult_0_l, atan_0. lra.
    + left. rewrite <- atan_0. apply atan_increasing.
      apply Rdiv_lt_0_compat; lra.
  - destruct (Rlt_dec x 0) as [Hneg | _]; [lra|].
    destruct (Rlt_dec 0 y) as [_ | _]; [lra|].
    destruct (Rlt_dec y 0) as [Hyneg | _]; lra.
Qed.

Lemma sin_atan2_unit y x :
  0 <= y -> 0 <= x -> y * y + x * x = 1 -> sin (atan2 y x) = y.
Proof.
  intros Hy Hx Hunit. unfold atan2.
  destruct (Rlt_dec 0 x) as [Hpos | Hnpos].
  - rewrite sin_atan.
    assert (Hsqrt : sqrt (1 + (y / x)²) = / x).
    { apply sqrt_lem_1.
      - unfold Rsqr. nra.
      - left. now apply Rinv_0_lt_compat.
      - assert (Hyy : y * y = 1 - x * x) by lra.
        unfold Rsqr, Rdiv.
        replace (y * / x * (y * / x)) with (y * y * (/ x * / x)) by ring.
        rewrite Hyy. field. lra. }
    rewrite Hsqrt. field. lra.
  - assert (Hx0 : x = 0) by lra. subst x.
    destruct (Rlt_dec 0 0) as [Habs | _]; [lra|].
    assert (Hy1 : y = 1) by nra. subst y.
    destruct (Rlt_dec 0 1) as [_ | Habs]; [|lra].
    apply sin_PI2.
Qed.

Lemma sin_le_arg x : 0 <= x -> sin x <= x.
Proof.
  intros [Hpos | <-].
  - left. now apply sin_lt_x.
  - rewrite sin_0. lra.
Qed.

(** *** Symmetry and the diagonal *)

Lemma haversine_a_sym lat1 lon1 lat2 lon2 :
  haversine_a lat1 lon1 lat2 lon2 = haversine_a lat2 lon2 lat1 lon1.
Proof.
  unfold haversine_a. cbv zeta.
  replace ((lat1 - lat2) * PI / 180 / 2) with (- ((lat2 - lat1) * PI / 180 / 2))
    by lra.
  replace ((lon1 - lon2) * PI / 180 / 2) with (- ((lon2 - lon1) * PI / 180 / 2))
    by lra.
  rewrite !sin_neg. ring.
Qed.


Lemma calculateDistance_zero_term lat1 lon1 lat2 lon2 :
  haversine_a lat1 lon1 lat2 lon2 = 0 ->
  calculateDistance lat1 lon1 lat2 lon2 = 0.
Proof.
  intros Ha. unfold calculateDistance. cbv zeta. rewrite Ha.
  rewrite Rminus_0_r, sqrt_0, sqrt_1.
  unfold atan2. destruct (Rlt_dec 0 1) as [_ | Habs]; [|lra].
  unfold Rdiv. rewrite Rmult_0_l, atan_0. ring.
Qed.

Lemma calculateDistance_same la lo : calculateDistance la lo la lo = 0.
Proof.
  apply calculateDistance_zero_term. unfold haversine_a. cbv zeta.
  replace ((la - la) * PI / 180 / 2) with 0 by lra.
  replace ((lo - lo) * PI / 180 / 2) with 0 by lra.
  rewrite sin_0. ring.
Qed.



Lemma calculateDistance_nonneg lat1 lon1 lat2 lon2 :
  0 <= calculateDistance lat1 lon1 lat2 lon2.
Proof.
  unfold calculateDistance, R_earth. cbv zeta.
  pose proof (atan2_nonneg_range
                (sqrt (haversine_a lat1 lon1 lat2 lon2))
                (sqrt (1 - haversine_a lat1 lon1 lat2 lon2))
                (sqrt_pos _) (sqrt_pos _)) as [Hlo _].
  nra.
Qed.

(** *** The haversine term is a quarter of the squared chord *)

Lemma unit_sphere la lo :
  ux la lo * ux la lo + uy la lo * uy la lo + uz la lo * uz la lo = 1.
Proof.
  unfold ux, uy, uz.
  pose proof (sin2_cos2 (rad la)) as Ha. pose proof (sin2_cos2 (rad lo)) as Ho.
  unfold Rsqr in *. nra.
Qed.

Lemma sin_half_sq x : sin (x / 2) * sin (x / 2) = (1 - cos x) / 2.
Proof.
  replace x with (2 * (x / 2)) at 3 by field.
  rewrite cos_2a_sin. field.
Qed.

Lemma haversine_a_chord lat1 lon1 lat2 lon2 :
  4 * haversine_a lat1 lon1 lat2 lon2 = chord2 lat1 lon1 lat2 lon2.
Proof.
  unfold haversine_a, chord2, ux, uy, uz. cbv zeta.
  rewrite (Rmult_assoc (cos _ * cos _) (sin _) (sin _)).
  rewrite !sin_half_sq.
  replace ((lat2 - lat1) * PI / 180) with (rad lat2 - rad lat1)
    by (unfold rad; field).
  replace ((lon2 - lon1) * PI / 180) with (rad lon2 - rad lon1)
    by (unfold rad; field).
  fold (rad lat1) (rad lat2).
  rewrite !cos_minus.
  pose proof (sin2_cos2 (rad lat1)) as H1. pose proof (sin2_cos2 (rad lat2)) as H2.
  pose proof (sin2_cos2 (rad lon1)) as H3. pose proof (sin2_cos2 (rad lon2)) as H4.
  unfold Rsqr in *.
  set (c1 := cos (rad lat1)) in *. set (s1 := sin (rad lat1)) in *.
  set (c2 := cos (rad lat2)) in *. set (s2 := sin (rad lat2)) in *.
  set (k1 := cos (rad lon1)) in *. set (t1 := sin (rad lon1)) in *.
  set (k2 := cos (rad lon2)) in *. set (t2 := sin (rad lon2)) in *.
  replace ((c1 * k1 - c2 * k2) * (c1 * k1 - c2 * k2) +
           (c1 * t1 - c2 * t2) * (c1 * t1 - c2 * t2) +
           (s1 - s2) * (s1 - s2))
    with (c1 * c1 * (t1 * t1 + k1 * k1) + c2 * c2 * (t2 * t2 + k2 * k2) +
          (s1 * s1 + s2 * s2) - 2 * c1 * c2 * (k2 * k1 + t2 * t1) - 2 * s1 * s2)
    by ring.
  rewrite H3, H4.
  replace (s1 * s1 + s2 * s2) with (2 - c1 * c1 - c2 * c2) by lra.
  field.
Qed.

Lemma haversine_a_range lat1 lon1 lat2 lon2 :
  0 <= haversine_a lat1 lon1 lat2 lon2 <= 1.
Proof.
  pose proof (haversine_a_chord lat1 lon1 lat2 lon2) as Hc.
  pose proof (unit_sphere lat1 lon1) as H1.
  pose proof (unit_sphere lat2 lon2) as H2.
  unfold chord2 in Hc.
  set (a1 := ux lat1 lon1) in *. set (b1 := uy lat1 lon1) in *.
  set (d1 := uz lat1 lon1) in *. set (a2 := ux lat2 lon2) in *.
  set (b2 := uy lat2 lon2) in *. set (d2 := uz lat2 lon2) in *.
  clearbody a1 b1 d1 a2 b2 d2.
  pose proof (Rle_0_sqr (a1 - a2)) as Q1. pose proof (Rle_0_sqr (b1 - b2)) as Q2.
  pose proof (Rle_0_sqr (d1 - d2)) as Q3. pose proof (Rle_0_sqr (a1 + a2)) as Q4.
  pose proof (Rle_0_sqr (b1 + b2)) as Q5. pose proof (Rle_0_sqr (d1 + d2)) as Q6.
  unfold Rsqr in *.
  split; lra.
Qed.

(** The great-circle arc is at least as long as the chord. *)
Lemma calculateDistance_chord_le lat1 lon1 lat2 lon2 :
  2 * R_earth * sqrt (haversine_a lat1 lon1 lat2 lon2) <=
  calculateDistance lat1 lon1 lat2 lon2.
Proof.
  unfold calculateDistance. cbv zeta.
  pose proof (haversine_a_range lat1 lon1 lat2 lon2) as [Hlo Hhi].
  set (a := haversine_a lat1 lon1 lat2 lon2) in *.
  assert (Hunit : sqrt a * sqrt a + sqrt (1 - a) * sqrt (1 - a) = 1).
  { rewrite !sqrt_sqrt; lra. }
  pose proof (sin_atan2_unit _ _ (sqrt_pos a) (sqrt_pos (1 - a)) Hunit) as Hsin.
  pose proof (atan2_nonneg_range _ _ (sqrt_pos a) (sqrt_pos (1 - a))) as [Hge _].
  pose proof (sin_le_arg _ Hge) as Hle. rewrite Hsin in Hle.
  unfold R_earth. nra.
Qed.

(** The triangle inequality of the Euclidean norm. *)
Lemma norm3_triangle a1 a2 a3 b1 b2 b3 :
  sqrt ((a1 + b1) * (a1 + b1) + (a2 + b2) * (a2 + b2) + (a3 + b3) * (a3 + b3)) <=
  sqrt (a1 * a1 + a2 * a2 + a3 * a3) + sqrt (b1 * b1 + b2 * b2 + b3 * b3).
Proof.
  assert (Hna : 0 <= a1 * a1 + a2 * a2 + a3 * a3) by nra.
  assert (Hnb : 0 <= b1 * b1 + b2 * b2 + b3 * b3) by nra.
  pose proof (sqrt_pos (a1 * a1 + a2 * a2 + a3 * a3)) as HA.
  pose proof (sqrt_pos (b1 * b1 + b2 * b2 + b3 * b3)) as HB.
  pose proof (sqrt_sqrt _ Hna) as HAA. pose proof (sqrt_sqrt _ Hnb) as HBB.
  generalize dependent (sqrt (a1 * a1 + a2 * a2 + a3 * a3)). intros A HA HAA.
  generalize dependent (sqrt (b1 * b1 + b2 * b2 + b3 * b3)). intros B HB HBB.
  assert (Hdot : a1 * b1 + a2 * b2 + a3 * b3 <= A * B).
  { destruct (Rle_dec (a1 * b1 + a2 * b2 + a3 * b3) 0) as [Hneg | Hpos].
    - nra.
    - assert (Hcs : (a1 * b1 + a2 * b2 + a3 * b3) * (a1 * b1 + a2 * b2 + a3 * b3)
                    <= (A * B) * (A * B)).
      { replace (A * B * (A * B)) with ((A * A) * (B * B)) by ring.
        rewrite HAA, HBB.
        pose proof (Rle_0_sqr (a1 * b2 - a2 * b1)) as Q1.
        pose proof (Rle_0_sqr (a1 * b3 - a3 * b1)) as Q2.
        pose proof (Rle_0_sqr (a2 * b3 - a3 * b2)) as Q3.
        unfold Rsqr in *. lra. }
      assert (0 <= A * B) by nra.
      nra. }
  rewrite <- (sqrt_square (A + B)) by lra.
  pose proof (Rle_0_sqr (a1 + b1)) as Q1. pose proof (Rle_0_sqr (a2 + b2)) as Q2.
  pose proof (Rle_0_sqr (a3 + b3)) as Q3. pose proof (Rle_0_sqr (A + B)) as Q4.
  unfold Rsqr in *.
  apply sqrt_le_1; lra.
Qed.

Lemma sqrt_haversine_a lat1 lon1 lat2 lon2 :
  2 * sqrt (haversine_a lat1 lon1 lat2 lon2) = sqrt (chord2 lat1 lon1 lat2 lon2).
Proof.
  rewrite <- haversine_a_chord.
  pose proof (haversine_a_range lat1 lon1 lat2 lon2) as [Hlo _].
  pose proof (sqrt_pos (haversine_a lat1 lon1 lat2 lon2)) as Hs.
  pose proof (sqrt_sqrt _ Hlo) as Hss.
  symmetry. apply sqrt_lem_1; lra.
Qed.

Lemma sqrt_haversine_a_triangle lat1 lon1 lat2 lon2 lat3 lon3 :
  sqrt (haversine_a lat1 lon1 lat3 lon3) <=
  sqrt (haversine_a lat1 lon1 lat2 lon2) + sqrt (haversine_a lat2 lon2 lat3 lon3).
Proof.
  pose proof (sqrt_haversine_a lat1 lon1 lat3 lon3) as H13.
  pose proof (sqrt_haversine_a lat1 lon1 lat2 lon2) as H12.
  pose proof (sqrt_haversine_a lat2 lon2 lat3 lon3) as H23.
  pose proof (norm3_triangle
                (ux lat1 lon1 - ux lat2 lon2) (uy lat1 lon1 - uy lat2 lon2)
                (uz lat1 lon1 - uz lat2 lon2)
                (ux lat2 lon2 - ux lat3 lon3) (uy lat2 lon2 - uy lat3 lon3)
                (uz lat2 lon2 - uz lat3 lon3)) as Htri.
  fold (chord2 lat1 lon1 lat2 lon2) (chord2 lat2 lon2 lat3 lon3) in Htri.
  replace (ux lat1 lon1 - ux lat2 lon2 + (ux lat2 lon2 - ux lat3 lon3))
    with (ux lat1 lon1 - ux lat3 lon3) in Htri by ring.
  replace (uy lat1 lon1 - uy lat2 lon2 + (uy lat2 lon2 - uy lat3 lon3))
    with (uy lat1 lon1 - uy lat3 lon3) in Htri by ring.
  replace (uz lat1 lon1 - uz lat2 lon2 + (uz lat2 lon2 - uz lat3 lon3))
    with (uz lat1 lon1 - uz lat3 lon3) in Htri by ring.
  fold (chord2 lat1 lon1 lat3 lon3) in Htri.
  lra.
Qed.

(** *** When the distance vanishes *)



End Geospatial.

(** ** Trip tracker *)

Section Tracker.

Import LeafletMaps LeafletMapView.

Local Open Scope R_scope.

Lemma onPosition_lastPositionRef position w :
  exists newPosition,
    lastPositionRef (view (onPosition position w)) = Some newPosition /\
    App.currentPosition (app (onPosition position w)) = Some newPosition /\
    lat newPosition = Geolocation.latitude (Geolocation.coords position) /\
    lng newPosition = Geolocation.longitude (Geolocation.coords position).
Proof.
  unfold onPosition. cbv zeta. eexists.
  destruct (lastPositionRef (view (updView _ w))); simpl; repeat split.
Qed.

Lemma onPosition_totalDistance position w :
  totalDistance (view (onPosition position w)) =
  match lastPositionRef (view w) with
  | Some last =>
      totalDistance (view w) +
      calculateDistance (lat last) (lng last)
        (Geolocation.latitude (Geolocation.coords position))
        (Geolocation.longitude (Geolocation.coords position)) / 1000
  | None => totalDistance (view w)
  end.
Proof.
  unfold onPosition. cbv zeta. simpl.
  destruct (lastPositionRef (view w)); reflexivity.
Qed.

Lemma feed_cons p rest w : feed (p :: rest) w = feed rest (onPosition p w).
Proof. reflexivity. Qed.

Lemma feed_from_last samples :
  forall w last,
    lastPositionRef (view w) = Some last ->
    totalDistance (view (feed samples w)) =
    totalDistance (view w) + pathFrom (lat last) (lng last) samples / 1000.
Proof.
  induction samples as [|p rest IH]; intros w last Hlast.
  - simpl. lra.
  - destruct (onPosition_lastPositionRef p w) as (np & Hnp & _ & Hla & Hlo).
    rewrite feed_cons, (IH _ np Hnp).
    rewrite onPosition_totalDistance, Hlast, Hla, Hlo. simpl. lra.
Qed.

Lemma feed_from_start samples w :
  lastPositionRef (view w) = None ->
  totalDistance (view (feed samples w)) =
  totalDistance (view w) + pathLength samples / 1000.
Proof.
  intros Hnone. destruct samples as [|p rest].
  - simpl. lra.
  - destruct (onPosition_lastPositionRef p w) as (np & Hnp & _ & Hla & Hlo).
    rewrite feed_cons, (feed_from_last rest _ np Hnp).
    rewrite onPosition_totalDistance, Hnone, Hla, Hlo. reflexivity.
Qed.

(** One degree of latitude is not a zero distance: the chord is a lower
    bound. *)
Lemma calculateDistance_one_degree : 0 < calculateDistance 0 0 1 0.
Proof.
  pose proof PI_RGT_0 as Hpi. pose proof PI_4 as Hpi4.
  pose proof (calculateDistance_chord_le 0 0 1 0) as Hchord.
  assert (Ha : haversine_a 0 0 1 0 =
               sin (PI / 360) * sin (PI / 360)).
  { unfold haversine_a. cbv zeta.
    replace ((1 - 0) * PI / 180 / 2) with (PI / 360) by lra.
    replace ((0 - 0) * PI / 180 / 2) with 0 by lra.
    rewrite sin_0. ring. }
  assert (Hsin : 0 < sin (PI / 360)) by (apply sin_gt_0; lra).
  rewrite Ha, sqrt_square in Hchord by lra.
  unfold R_earth in Hchord. nra.
Qed.

(** C6, as stated, fails: after the samples (0,0) and (1,0) the accumulated
    [totalDistance] is not the distance between them, in meters. *)
Lemma totalDistance_not_in_meters :
  totalDistance (view (feed [sampleAt 0 0; sampleAt 1 0] trackingStarted)) <>
  pathLength [sampleAt 0 0; sampleAt 1 0].
Proof.
  rewrite feed_from_start by reflexivity.
  simpl. pose proof calculateDistance_one_degree. lra.
Qed.

Lemma feed_steps_from samples :
  forall w last,
    lastPositionRef (view w) = Some last ->
    totalDistance (view (feed samples w)) =
    addKm (totalDistance (view w)) (stepsFrom (lat last) (lng last) samples).
Proof.
  induction samples as [|p rest IH]; intros w last Hlast.
  - reflexivity.
  - destruct (onPosition_lastPositionRef p w) as (np & Hnp & _ & Hla & Hlo).
    rewrite feed_cons, (IH _ np Hnp).
    rewrite onPosition_totalDistance, Hlast, Hla, Hlo. reflexivity.
Qed.

Lemma feed_steps_start samples w :
  lastPositionRef (view w) = None ->
  totalDistance (view (feed samples w)) =
  addKm (totalDistance (view w)) (stepDistances samples).
Proof.
  intros Hnone. destruct samples as [|p rest].
  - reflexivity.
  - destruct (onPosition_lastPositionRef p w) as (np & Hnp & _ & Hla & Hlo).
    rewrite feed_cons, (feed_steps_from rest _ np Hnp).
    rewrite onPosition_totalDistance, Hnone, Hla, Hlo. reflexivity.
Qed.

Lemma stepsFrom_app earlier later :
  forall la lo,
    exists tail,
      stepsFrom la lo (earlier ++ later) = stepsFrom la lo earlier ++ tail.
Proof.
  induction earlier as [|p earlier IH]; intros la lo.
  - exists (stepsFrom la lo later). reflexivity.
  - destruct (IH (Geolocation.latitude (Geolocation.coords p))
                (Geolocation.longitude (Geolocation.coords p))) as (tail & Htail).
    exists tail. simpl. now rewrite Htail.
Qed.

Lemma stepDistances_app earlier later :
  exists tail,
    stepDistances (earlier ++ later) = stepDistances earlier ++ tail.
Proof.
  destruct earlier as [|p earlier].
  - exists (stepDistances later). reflexivity.
  - apply stepsFrom_app.
Qed.

Lemma addKm_le steps :
  Forall (fun d => 0 <= d) steps -> forall total, total <= addKm total steps.
Proof.
  induction 1 as [|d steps Hd _ IH]; intros total.
  - simpl. lra.
  - cbv beta in Hd. unfold addKm in *. simpl.
    specialize (IH (total + d / 1000)). lra.
Qed.

(** C6, amended. From the start of tracking, after any sequence of accepted
    position samples the accumulated [totalDistance] is kept in kilometers:
    it is what the updates [prev + distance / 1000] give when applied in
    order, from 0, to the haversine distances between consecutive samples.
    As long as each of these distances is a number that is not negative,
    the accumulated value never decreases across samples. *)
Theorem totalDistance_accumulates earlier later w :
  lastPositionRef (view w) = None ->
  totalDistance (view w) = 0 ->
  totalDistance (view (feed (earlier ++ later) w)) =
    addKm 0 (stepDistances (earlier ++ later)) /\
  (Forall (fun d => 0 <= d) (stepDistances (earlier ++ later)) ->
   totalDistance (view (feed earlier w)) <=
   totalDistance (view (feed (earlier ++ later) w))).
Proof.
  intros Hnone Hzero. split.
  - now rewrite feed_steps_start, Hzero.
  - intros Hsteps.
    rewrite !feed_steps_start, Hzero by exact Hnone.
    destruct (stepDistances_app earlier later) as (tail & Htail).
    rewrite Htail in *. apply Forall_app in Hsteps as [_ Htailpos].
    unfold addKm at 2. rewrite fold_left_app.
    apply (addKm_le tail Htailpos).
Qed.

Lemma totalDistance_accumulates_witness :
  totalDistance (view (feed [sampleAt 0 0] trackingStarted)) <=
  totalDistance (view (feed ([sampleAt 0 0] ++ [sampleAt 1 0; sampleAt 0 0])
                         trackingStarted)) /\
  totalDistance (view (feed ([sampleAt 0 0] ++ [sampleAt 1 0; sampleAt 0 0])
                         trackingStarted)) =
  0 + calculateDistance 0 0 1 0 / 1000 + calculateDistance 1 0 0 0 / 1000.
Proof.
  destruct (totalDistance_accumulates [sampleAt 0 0] [sampleAt 1 0; sampleAt 0 0]
              trackingStarted eq_refl eq_refl) as [Htotal Hgrows].
  split.
  - apply Hgrows. cbn [app stepDistances stepsFrom].
    constructor; [apply calculateDistance_nonneg|].
    constructor; [apply calculateDistance_nonneg | constructor].
  - exact Htotal.
Defined.

(** C9. When the position stream reports an error, the error callback hands
    the message to [onError] and changes nothing else: the component's state
    (trip start time, last position, accumulated distance, watch handle) and
    the application's completed checkpoints, current chapter, position, route,
    story and screen are unchanged, and the only call the callback makes is
    the console log: it does not subscribe again. *)
Theorem onPositionError_preserves_trip error w :
  view (onPositionError error w) = view w /\
  App.completedCheckpoints (app (onPositionError error w)) =
    App.completedCheckpoints (app w) /\
  App.currentChapter (app (onPositionError error w)) = App.currentChapter (app w) /\
  App.currentPosition (app (onPositionError error w)) = App.currentPosition (app w) /\
  App.checkpoints (app (onPositionError error w)) = App.checkpoints (app w) /\
  App.route (app (onPositionError error w)) = App.route (app w) /\
  App.story (app (onPositionError error w)) = App.story (app w) /\
  App.currentScreen (app (onPositionError error w)) = App.currentScreen (app w) /\
  App.error (app (onPositionError error w)) =
    Some ("Location tracking error: " ++ Geolocation.message error)%string /\
  effects (onPositionError error w) =
    effects w ++ [ConsoleError "Geolocation error:"%string].
Proof.
  unfold onPositionError. cbv zeta. simpl. repeat split; reflexivity.
Qed.

(** The render that follows the error changes the identity of [onError], so
    the tracking effect runs again: while [isTracking] holds, its cleanup
    clears the watch and its body does not start a new one. *)
Lemma rerun_after_error_no_subscription supported now watchId error w :
  isTracking (view w) = true ->
  let w' := trackingEffectRerun supported now watchId (onPositionError error w) in
  view w' = view w /\
  app w' = app (onPositionError error w) /\
  forall id, ~ In (WatchPosition id)
               (skipn (length (effects w)) (effects w')).
Proof.
  intros Htracking. unfold trackingEffectRerun, onPositionError. cbv zeta.
  cbn [view updApp perform].
  destruct (watchIdRef (view w)) as [id|]; [destruct (id =? 0)|];
    cbn [view updApp perform app effects]; rewrite Htracking;
    cbn [negb app view effects updApp perform];
    (split; [reflexivity|]; split; [reflexivity|]);
    intros id'; rewrite <- ?app_assoc, skipn_app, skipn_all, Nat.sub_diag;
    simpl; intuition discriminate.
Qed.

End Tracker.

(** ** Points that are too far apart to be near the same position *)

Section Separation.

Import LeafletMaps.

Local Open Scope R_scope.

Lemma sq_abs x : x * x = Rabs x * Rabs x.
Proof. unfold Rabs. destruct (Rcase_abs x); ring. Qed.

Lemma sin_approx_1 a : sin_approx a 1 = a - a * a * a / 6.
Proof.
  unfold sin_approx, sin_term. simpl. field.
Qed.

Lemma sin_lower x : 0 <= x <= 1 / 10 -> 99 / 100 * x <= sin x.
Proof.
  intros [Hlo Hhi].
  destruct (pre_sin_bound x 0) as [Hb _]; [lra | lra |].
  change (2 * 0 + 1)%nat with 1%nat in Hb. rewrite sin_approx_1 in Hb.
  assert (x * x <= 1 / 100) by nra.
  assert (x * x * x <= x * (1 / 100)) by nra.
  lra.
Qed.

Lemma sin_sq_lower t :
  Rabs t <= 1 / 10 -> 98 / 100 * (t * t) <= sin t * sin t.
Proof.
  intros Ht. destruct (Rle_dec 0 t) as [Hpos | Hneg].
  - rewrite Rabs_right in Ht by lra.
    pose proof (sin_lower t (conj Hpos Ht)). nra.
  - rewrite Rabs_left in Ht by lra.
    assert (Hm : 0 <= - t <= 1 / 10) by lra.
    pose proof (sin_lower (- t) Hm) as Hs. rewrite sin_neg in Hs. nra.
Qed.

Lemma sin_sq_upper y : Rabs y <= 1 -> sin y * sin y <= y * y.
Proof.
  intros Hy. pose proof PI2_1 as Hpi.
  destruct (Rle_dec 0 y) as [Hpos | Hneg].
  - rewrite Rabs_right in Hy by lra.
    pose proof (sin_le_arg y Hpos). pose proof (sin_ge_0 y Hpos). nra.
  - rewrite Rabs_left in Hy by lra.
    assert (Hm : 0 <= - y) by lra.
    pose proof (sin_le_arg (- y) Hm) as Hs. pose proof (sin_ge_0 (- y) Hm) as Hg.
    rewrite sin_neg in Hs, Hg. nra.
Qed.

Lemma cos_lower t : Rabs t <= 1 / 4 -> 96 / 100 <= cos t.
Proof.
  intros Ht.
  replace t with (2 * (t / 2)) by field. rewrite cos_2a_sin.
  assert (Hh : Rabs (t / 2) <= 1).
  { unfold Rdiv. rewrite Rabs_mult, (Rabs_right (/ 2)) by lra. lra. }
  pose proof (sin_sq_upper (t / 2) Hh) as Hs.
  assert (t * t <= 1 / 16).
  { destruct (Rle_dec 0 t).
    - rewrite Rabs_right in Ht by lra. nra.
    - rewrite Rabs_left in Ht by lra. nra. }
  nra.
Qed.

(** Two points in the low latitudes that differ by at least 0.0008 degrees
    of latitude and 0.001 degrees of longitude, and by at most one degree. *)
Section Apart.

Variables lat1 lon1 lat2 lon2 : R.
Hypothesis Hlat1 : 0 <= lat1 <= 11.
Hypothesis Hlat2 : 0 <= lat2 <= 11.
Hypothesis Hdlat : 8 / 10000 <= Rabs (lat2 - lat1) <= 1.
Hypothesis Hdlon : 1 / 1000 <= Rabs (lon2 - lon1) <= 1.

Let al : R := (lat2 - lat1) * PI / 180 / 2.
Let be : R := (lon2 - lon1) * PI / 180 / 2.

Lemma half_angles_abs :
  Rabs al = Rabs (lat2 - lat1) * (PI / 360) /\
  Rabs be = Rabs (lon2 - lon1) * (PI / 360).
Proof.
  pose proof PI_RGT_0 as Hpi. unfold al, be.
  replace ((lat2 - lat1) * PI / 180 / 2) with ((lat2 - lat1) * (PI / 360)) by field.
  replace ((lon2 - lon1) * PI / 180 / 2) with ((lon2 - lon1) * (PI / 360)) by field.
  rewrite !Rabs_mult, (Rabs_right (PI / 360)) by lra. split; reflexivity.
Qed.

(** The chord between them is longer than 100 m. *)
Lemma haversine_a_apart :
  100 < 2 * R_earth * sqrt (haversine_a lat1 lon1 lat2 lon2).
Proof.
  pose proof PI2_3_2 as Hpi3. pose proof PI_4 as Hpi4.
  destruct half_angles_abs as [Hal Hbe].
  assert (Hc1 : 96 / 100 <= cos (lat1 * PI / 180)).
  { apply cos_lower. rewrite Rabs_right by nra. nra. }
  assert (Hc2 : 96 / 100 <= cos (lat2 * PI / 180)).
  { apply cos_lower. rewrite Rabs_right by nra. nra. }
  assert (Hsa : 98 / 100 * (al * al) <= sin al * sin al).
  { apply sin_sq_lower. rewrite Hal. nra. }
  assert (Hsb : 98 / 100 * (be * be) <= sin be * sin be).
  { apply sin_sq_lower. rewrite Hbe. nra. }
  assert (Hal2 : (8 / 10000 * (3 / 360)) * (8 / 10000 * (3 / 360)) <= al * al).
  { rewrite (sq_abs al), Hal. apply Rmult_le_compat; nra. }
  assert (Hbe2 : (1 / 1000 * (3 / 360)) * (1 / 1000 * (3 / 360)) <= be * be).
  { rewrite (sq_abs be), Hbe. apply Rmult_le_compat; nra. }
  assert (Ha : (50 / R_earth) * (50 / R_earth) < haversine_a lat1 lon1 lat2 lon2).
  { unfold haversine_a. cbv zeta. fold al be.
    assert (Hcc : 96 / 100 * (96 / 100) <=
                  cos (lat1 * PI / 180) * cos (lat2 * PI / 180))
      by (apply Rmult_le_compat; lra).
    assert (Hsb0 : 0 <= sin be * sin be) by apply Rle_0_sqr.
    assert (Hterm : 96 / 100 * (96 / 100) * (sin be * sin be) <=
                    cos (lat1 * PI / 180) * cos (lat2 * PI / 180) * sin be * sin be).
    { rewrite (Rmult_assoc (cos _ * cos _)). apply Rmult_le_compat_r; assumption. }
    unfold R_earth. lra. }
  assert (Hsq : 50 / R_earth < sqrt (haversine_a lat1 lon1 lat2 lon2)).
  { rewrite <- (sqrt_square (50 / R_earth)) by (unfold R_earth; lra).
    apply sqrt_lt_1;
      [unfold R_earth; nra | apply haversine_a_range | exact Ha]. }
  unfold R_earth in *. lra.
Qed.

(** A position within 50 m of the first point is more than 50 m away from
    the second. *)
Lemma calculateDistance_far la lo :
  calculateDistance la lo lat1 lon1 <= 50 ->
  50 < calculateDistance la lo lat2 lon2.
Proof.
  intros Hnear.
  pose proof haversine_a_apart as Hfar.
  pose proof (calculateDistance_chord_le la lo lat1 lon1) as Hc1.
  pose proof (calculateDistance_chord_le la lo lat2 lon2) as Hc2.
  pose proof (sqrt_haversine_a_triangle lat1 lon1 la lo lat2 lon2) as Htri.
  rewrite (haversine_a_sym lat1 lon1 la lo) in Htri.
  unfold R_earth in *. lra.
Qed.

End Apart.

End Separation.

(** ** The walk of the scenario *)

Section EndToEnd.

Import LeafletMaps LeafletMapView.

Local Open Scope R_scope.

Local Arguments calculateDistance : simpl never.
Local Arguments Scenario.point : simpl never.

Lemma plannedCheckpoints_eq :
  Scenario.plannedCheckpoints =
  [pushed (Scenario.point 4) 1; pushed (Scenario.point 8) 2;
   pushed (Scenario.point 12) 3; pushed (Scenario.point 16) 4].
Proof. reflexivity. Qed.

Lemma point_separated k :
  k = 4%nat \/ k = 12%nat \/ k = 16%nat ->
  0 <= Scenario.pointLat 8 <= 11 /\
  0 <= Scenario.pointLat k <= 11 /\
  8 / 10000 <= Rabs (Scenario.pointLat k - Scenario.pointLat 8) <= 1 /\
  1 / 1000 <= Rabs (Scenario.pointLng k - Scenario.pointLng 8) <= 1.
Proof.
  unfold Scenario.pointLat, Scenario.pointLng, Scenario.point,
    Scenario.origin, Scenario.destination.
  intros [-> | [-> | ->]]; simpl.
  - rewrite !Rabs_left by lra. lra.
  - rewrite !Rabs_right by lra. lra.
  - rewrite !Rabs_right by lra. lra.
Qed.

Lemma near_point_8_far_from k la lo :
  k = 4%nat \/ k = 12%nat \/ k = 16%nat ->
  calculateDistance la lo (Scenario.pointLat 8) (Scenario.pointLng 8) <= 50 ->
  50 < calculateDistance la lo (Scenario.pointLat k) (Scenario.pointLng k).
Proof.
  intros Hk Hnear.
  destruct (point_separated k Hk) as (H8 & Hk' & Hdlat & Hdlon).
  now apply (calculateDistance_far
               (Scenario.pointLat 8) (Scenario.pointLng 8)
               (Scenario.pointLat k) (Scenario.pointLng k)).
Qed.

(** Near point 8 the loop of the effect calls back for array index 1 only,
    and only while that index is not completed. *)
Lemma checkProximity_near_point_8 {St : Type} (here : Position)
    (completed : list nat) (callback : nat -> St -> St) (s : St) :
  calculateDistance (lat here) (lng here)
    (Scenario.pointLat 8) (Scenario.pointLng 8) <= 50 ->
  checkProximity (Some here) Scenario.plannedCheckpoints completed callback s =
  if includes completed 1 then s else callback 1%nat s.
Proof.
  intros Hnear.
  pose proof (near_point_8_far_from 4 _ _ (or_introl eq_refl) Hnear) as H4.
  pose proof (near_point_8_far_from 12 _ _ (or_intror (or_introl eq_refl)) Hnear)
    as H12.
  pose proof (near_point_8_far_from 16 _ _ (or_intror (or_intror eq_refl)) Hnear)
    as H16.
  rewrite plannedCheckpoints_eq. unfold checkProximity, forEach.
  cbn [forEachFrom length Nat.eqb position pushed lat lng].
  fold (Scenario.pointLat 4) (Scenario.pointLng 4)
       (Scenario.pointLat 8) (Scenario.pointLng 8)
       (Scenario.pointLat 12) (Scenario.pointLng 12)
       (Scenario.pointLat 16) (Scenario.pointLng 16).
  destruct (Rle_dec (calculateDistance (lat here) (lng here)
                       (Scenario.pointLat 4) (Scenario.pointLng 4)) 50);
    [lra|].
  destruct (Rle_dec (calculateDistance (lat here) (lng here)
                       (Scenario.pointLat 8) (Scenario.pointLng 8)) 50);
    [|lra].
  destruct (Rle_dec (calculateDistance (lat here) (lng here)
                       (Scenario.pointLat 12) (Scenario.pointLng 12)) 50);
    [lra|].
  destruct (Rle_dec (calculateDistance (lat here) (lng here)
                       (Scenario.pointLat 16) (Scenario.pointLng 16)) 50);
    [lra|].
  destruct (includes completed 0), (includes completed 1),
    (includes completed 2), (includes completed 3); reflexivity.
Qed.

(** The application state rendered after a sample arrives on the walk. *)
Lemma rendered_after_sample st sample :
  exists here : Position,
    lat here = Geolocation.latitude (Geolocation.coords sample) /\
    lng here = Geolocation.longitude (Geolocation.coords sample) /\
    app (onPosition sample (Scenario.walkingWith st)) =
    {| App.currentScreen := App.Walking;
       App.route := Some Scenario.walk;
       App.story := st;
       App.currentPosition := Some here;
       App.checkpoints := Scenario.plannedCheckpoints;
       App.completedCheckpoints := [];
       App.currentChapter := 0;
       App.isLoading := false;
       App.error := None |}.
Proof.
  exists {| latlng :=
              {| lat := Geolocation.latitude (Geolocation.coords sample);
                 lng := Geolocation.longitude (Geolocation.coords sample) |};
            accuracy := Geolocation.accuracy (Geolocation.coords sample);
            timestamp := Geolocation.timestamp sample |}.
  split; [|split]; [reflexivity|reflexivity|].
  unfold Scenario.walkingWith, startTracking, onPosition, App.handleRouteSelected.
  cbn [negb App.rd_story].
  destruct (App.storyChapters st) as [chs|]; [destruct (0 <? length chs)%nat|];
    reflexivity.
Qed.

Lemma narration_chapters :
  exists chs,
    App.storyChapters (Some Scenario.narration) = Some chs /\ length chs = 5%nat.
Proof.
  eexists. split; reflexivity.
Qed.

(** The destination, point 19, is out of reach as well: the test that
    follows the loop does not complete the trip, before or after the
    checkpoint is recorded. *)
Lemma destinationTest_near_point_8 (here : Position) completed :
  calculateDistance (lat here) (lng here)
    (Scenario.pointLat 8) (Scenario.pointLng 8) <= 50 ->
  (length completed < 4)%nat ->
  destinationTest (Some here) Scenario.plannedCheckpoints completed
    (Some Scenario.walk) = false.
Proof.
  intros Hnear Hlen.
  assert (Hfar : 50 < calculateDistance (lat here) (lng here)
                        (lat Scenario.destination) (lng Scenario.destination)).
  { apply (calculateDistance_far (Scenario.pointLat 8) (Scenario.pointLng 8));
      try exact Hnear;
      unfold Scenario.pointLat, Scenario.pointLng, Scenario.point,
        Scenario.origin, Scenario.destination; simpl;
      try rewrite !Rabs_right by lra; lra. }
  unfold destinationTest. rewrite plannedCheckpoints_eq.
  cbn [length Nat.eqb Scenario.walk destCoords].
  destruct (Rle_dec _ 50) as [Hle | _]; [lra|].
  rewrite orb_false_r. apply Nat.eqb_neq. lia.
Qed.

(** C8. On the walk of 20 evenly spaced points with four checkpoints (at
    point indices 4, 8, 12, 16, with [index] 1 to 4) and a story of more
    than two chapters, a position sample within 50 m of point 8 makes the
    proximity effect call [onCheckpointReached] exactly once, for the
    checkpoint at array position 1, whose [index] is 2 and whose position is
    point 8; the current chapter goes from 0 to 2, the third chapter; and the
    effect run that follows the commit makes no further call. *)
Theorem checkpoint_two_reached (st : option Story) (chs : list Chapter)
    (sample : Geolocation.GeolocationPosition) :
  App.storyChapters st = Some chs ->
  (2 < length chs)%nat ->
  calculateDistance
    (Geolocation.latitude (Geolocation.coords sample))
    (Geolocation.longitude (Geolocation.coords sample))
    (Scenario.pointLat 8) (Scenario.pointLng 8) <= 50 ->
  let rendered := app (onPosition sample (Scenario.walkingWith st)) in
  map index (App.checkpoints rendered) = [1; 2; 3; 4]%nat /\
  map position (App.checkpoints rendered) =
    map (fun k => {| lat := Scenario.pointLat k; lng := Scenario.pointLng k |})
        [4; 8; 12; 16]%nat /\
  App.currentChapter rendered = 0%nat /\
  exists committed,
    proximityEffect rendered = (committed, [1%nat]) /\
    nth_error (App.checkpoints rendered) 1 = Some (pushed (Scenario.point 8) 2) /\
    App.completedCheckpoints committed = [1%nat] /\
    App.currentChapter committed = 2%nat /\
    proximityEffect committed = (committed, []).
Proof.
  intros Hchs Hlen Hnear rendered.
  destruct (rendered_after_sample st sample) as (here & Hlat & Hlng & Hrendered).
  rewrite <- Hlat, <- Hlng in Hnear.
  subst rendered. rewrite Hrendered.
  split; [reflexivity|]. split; [reflexivity|]. split; [reflexivity|].
  eexists. split; [|split; [reflexivity|]].
  - unfold proximityEffect.
    cbn [App.currentPosition App.checkpoints App.completedCheckpoints].
    rewrite (checkProximity_near_point_8 here [] _ _ Hnear).
    cbn [includes existsb app]. reflexivity.
  - unfold App.handleCheckpointReached.
    cbn [App.completedCheckpoints App.story includes existsb negb].
    rewrite Hchs.
    assert (Hlt : (1 + 1 <? length chs)%nat = true) by (apply Nat.ltb_lt; lia).
    rewrite Hlt.
    split; [reflexivity|]. split; [reflexivity|].
    unfold proximityEffect.
    cbn [App.currentPosition App.checkpoints App.completedCheckpoints
         App.setCurrentChapter App.setCompletedCheckpoints app].
    rewrite (checkProximity_near_point_8 here [1%nat] _ _ Hnear).
    reflexivity.
Qed.

Lemma checkpoint_two_reached_witness :
  exists committed,
    proximityEffect
      (app (onPosition (sampleAt (Scenario.pointLat 8) (Scenario.pointLng 8))
              Scenario.walking)) = (committed, [1%nat]) /\
    App.currentChapter committed = 2%nat.
Proof.
  destruct narration_chapters as (chs & Hchs & Hlen).
  destruct (checkpoint_two_reached (Some Scenario.narration) chs
              (sampleAt (Scenario.pointLat 8) (Scenario.pointLng 8)))
    as (_ & _ & _ & committed & Hrun & _ & _ & Hchapter & _).
  - exact Hchs.
  - rewrite Hlen. lia.
  - cbn [sampleAt Geolocation.coords Geolocation.latitude Geolocation.longitude].
    rewrite calculateDistance_same. lra.
  - exists committed. split; [exact Hrun | exact Hchapter].
Defined.

End EndToEnd.

(** * Further properties of the code *)

(** ** The planner on any geometry *)

Section PlannerTotal.

Import LeafletMaps.

Lemma checkpointsLoop_empty interval :
  forall steps i acc, checkpointsLoop [] 0 interval steps i acc = Normal acc.
Proof.
  induction steps as [|steps IH]; intros i acc; simpl; [reflexivity|].
  apply IH.
Qed.

(** X1. [generateCheckpoints] never throws, whatever the route and the
    requested count: it returns exactly [numCheckpoints] checkpoints when
    the geometry has at least one point and none otherwise, so the guard
    [pointIndex < totalPoints] only ever skips on an empty geometry. *)
Theorem generateCheckpoints_count route n :
  exists cps,
    generateCheckpoints route n = Normal cps /\
    length cps =
    match geometry route with
    | Some g =>
        match coordinates g with
        | Some (_ :: _) => n
        | _ => 0
        end
    | None => 0
    end.
Proof.
  destruct (geometry route) as [g|] eqn:Hg.
  2:{ exists []. unfold generateCheckpoints. rewrite Hg. split; reflexivity. }
  destruct (coordinates g) as [coords|] eqn:Hc.
  2:{ exists []. unfold generateCheckpoints. rewrite Hg, Hc. split; reflexivity. }
  destruct coords as [|c coords].
  - exists []. unfold generateCheckpoints. rewrite Hg, Hc. simpl.
    split; [apply checkpointsLoop_empty | reflexivity].
  - destruct (planner_loop_evenlySpaced route g (c :: coords) n Hg Hc)
      as (cps & Hrun & Hlen & _).
    { intros i Hi. apply pointIndex_in_range; simpl; lia. }
    exists cps. split; [exact Hrun | exact Hlen].
Qed.

(** X2. When a non-empty geometry has no more points than the requested
    count, the interval is 0 and every checkpoint is placed at the first
    point of the route. *)
Theorem generateCheckpoints_few_points route g c0 coords n :
  geometry route = Some g ->
  coordinates g = Some (c0 :: coords) ->
  length (c0 :: coords) <= n ->
  generateCheckpoints route n = Normal (map (pushed c0) (seq 1 n)).
Proof.
  intros Hg Hc Hfew.
  destruct (planner_loop_evenlySpaced route g (c0 :: coords) n Hg Hc)
    as (cps & Hrun & Hlen & Hidx & Hpos).
  { intros i Hi. apply pointIndex_in_range; simpl; lia. }
  rewrite Hrun. f_equal.
  assert (Hint : length (c0 :: coords) / (n + 1) = 0)
    by (apply Nat.div_small; lia).
  apply nth_error_ext. intros k.
  destruct (Nat.lt_ge_cases k n) as [Hk | Hk].
  - destruct (Hpos (S k)) as (c & Hcoord & Hcp); [lia|].
    rewrite Hint, Nat.mul_0_r in Hcoord. simpl in Hcoord. injection Hcoord as <-.
    replace (S k - 1) with k in Hcp by lia. rewrite Hcp.
    rewrite nth_error_map, nth_error_seq.
    apply Nat.ltb_lt in Hk. now rewrite Hk.
  - rewrite (proj2 (nth_error_None _ _)) by lia.
    symmetry. apply nth_error_None. rewrite length_map, length_seq. exact Hk.
Qed.

Lemma generateCheckpoints_few_points_witness :
  generateCheckpoints (routeOf threePoints) 5 =
  Normal (map (pushed (0%R, 0%R)) (seq 1 5)).
Proof.
  apply (generateCheckpoints_few_points (routeOf threePoints) _ _ _ 5
           eq_refl eq_refl).
  simpl. lia.
Defined.

(** X3. When the geometry has more points than the requested count, the
    interval is at least 1: the checkpoints sit at strictly increasing point
    indices, one interval apart, never at the first point. *)
Theorem generateCheckpoints_distinct_points route g coords n :
  geometry route = Some g ->
  coordinates g = Some coords ->
  n + 1 <= length coords ->
  let interval := length coords / (n + 1) in
  1 <= interval /\
  exists cps,
    generateCheckpoints route n = Normal cps /\
    length cps = n /\
    forall i, 1 <= i <= n ->
      0 < i * interval < length coords /\
      (i < n -> i * interval < (i + 1) * interval) /\
      exists c, nth_error coords (i * interval) = Some c /\
                nth_error cps (i - 1) = Some (pushed c i).
Proof.
  intros Hg Hc Hmany interval.
  assert (Hint : 1 <= interval).
  { unfold interval. apply Nat.div_le_lower_bound; lia. }
  split; [exact Hint|].
  destruct (planner_loop_evenlySpaced route g coords n Hg Hc)
    as (cps & Hrun & Hlen & Hidx & Hpos).
  { intros i Hi. apply pointIndex_in_range; lia. }
  exists cps. split; [exact Hrun|]. split; [exact Hlen|].
  intros i Hi. split; [|split].
  - split; [nia|]. apply pointIndex_in_range; lia.
  - intros _. nia.
  - apply Hpos. exact Hi.
Qed.

Lemma generateCheckpoints_distinct_points_witness :
  1 <= length sixPoints / (4 + 1) /\
  exists cps,
    generateCheckpoints (routeOf sixPoints) 4 = Normal cps /\
    length cps = 4 /\
    forall i, 1 <= i <= 4 ->
      0 < i * (length sixPoints / (4 + 1)) < length sixPoints /\
      (i < 4 -> i * (length sixPoints / (4 + 1)) <
                (i + 1) * (length sixPoints / (4 + 1))) /\
      exists c, nth_error sixPoints (i * (length sixPoints / (4 + 1))) = Some c /\
                nth_error cps (i - 1) = Some (pushed c i).
Proof.
  apply (generateCheckpoints_distinct_points (routeOf sixPoints) _ sixPoints 4
           eq_refl eq_refl).
  simpl. lia.
Defined.

End PlannerTotal.

(** ** Markup stripping in the directions-based planner *)

Section StripTags.

Import Maps.

Local Open Scope string_scope.

Lemma string_app_nil_r s : s ++ "" = s.
Proof. induction s as [|c s IH]; simpl; [reflexivity | now rewrite IH]. Qed.

Lemma string_app_assoc a b c : (a ++ b) ++ c = a ++ (b ++ c).
Proof. induction a as [|x a IH]; simpl; [reflexivity | now rewrite IH]. Qed.

Lemma string_length_app a b :
  String.length (a ++ b) = String.length a + String.length b.
Proof. induction a as [|x a IH]; simpl; [reflexivity | now rewrite IH]. Qed.

Lemma noClosing_app a b : noClosing (a ++ b) = noClosing a && noClosing b.
Proof.
  induction a as [|c a IH]; simpl; [reflexivity|].
  now rewrite IH, andb_assoc.
Qed.

Lemma noClosing_tagFree s : noClosing s = true -> tagFree s = true.
Proof.
  induction s as [|c s IH]; simpl; [reflexivity|].
  intros H. apply andb_prop in H as [_ H].
  destruct (Ascii.eqb c "<"); auto.
Qed.

(** Once a bracket is open and no closing bracket follows, nothing is
    removed. *)
Lemma stripTagsFrom_pending_unclosed s :
  forall p, noClosing s = true -> stripTagsFrom (Some p) s = p ++ s.
Proof.
  induction s as [|c s IH]; intros p H; simpl.
  - now rewrite string_app_nil_r.
  - simpl in H. apply andb_prop in H as [Hc H].
    apply negb_true_iff in Hc. rewrite Hc, (IH _ H).
    now rewrite string_app_assoc.
Qed.

(** An open bracket and everything up to the next closing bracket are
    dropped. *)
Lemma stripTagsFrom_pending_closed b :
  forall p rest,
    noClosing b = true ->
    stripTagsFrom (Some p) (b ++ String ">" rest) = stripTagsFrom None rest.
Proof.
  induction b as [|c b IH]; intros p rest H; simpl.
  - reflexivity.
  - simpl in H. apply andb_prop in H as [Hc H].
    apply negb_true_iff in Hc. rewrite Hc. now apply IH.
Qed.

Lemma stripTagsFrom_text a :
  forall s, noOpening a = true ->
            stripTagsFrom None (a ++ s) = a ++ stripTagsFrom None s.
Proof.
  induction a as [|c a IH]; intros s H; simpl; [reflexivity|].
  simpl in H. apply andb_prop in H as [Hc H].
  apply negb_true_iff in Hc. rewrite Hc. now rewrite IH.
Qed.

Lemma stripTagsFrom_tagFree s :
  forall pending,
    match pending with Some p => noClosing p = true | None => True end ->
    tagFree (stripTagsFrom pending s) = true.
Proof.
  induction s as [|c s IH]; intros [p|] Hp; simpl.
  - now apply noClosing_tagFree.
  - reflexivity.
  - destruct (Ascii.eqb c ">") eqn:Hc.
    + now apply IH.
    + apply IH. rewrite noClosing_app, Hp. simpl. now rewrite Hc.
  - destruct (Ascii.eqb c "<") eqn:Hc.
    + apply IH. simpl. apply Ascii.eqb_eq in Hc. subst c. reflexivity.
    + simpl. rewrite Hc. now apply IH.
Qed.

Lemma stripTagsFrom_fixed s : tagFree s = true -> stripTagsFrom None s = s.
Proof.
  induction s as [|c s IH]; simpl; [reflexivity|].
  destruct (Ascii.eqb c "<") eqn:Hc; intros H.
  - now rewrite stripTagsFrom_pending_unclosed.
  - now rewrite IH.
Qed.

Lemma stripTagsFrom_length s :
  forall pending,
    String.length (stripTagsFrom pending s) <=
    String.length s +
    match pending with Some p => String.length p | None => 0 end.
Proof.
  induction s as [|c s IH]; intros [p|]; simpl; try lia.
  - destruct (Ascii.eqb c ">").
    + specialize (IH None). simpl in IH. lia.
    + specialize (IH (Some (p ++ String c ""))). simpl in IH.
      rewrite string_length_app in IH. simpl in IH. lia.
  - destruct (Ascii.eqb c "<").
    + specialize (IH (Some (String c ""))). simpl in IH. lia.
    + simpl. specialize (IH None). simpl in IH. lia.
Qed.

(** X4. The two equations of [replace(/<[^>]*>/g, "")]: the text before
    the first opening bracket is kept and the bracket is removed together
    with everything up to the next closing bracket; a string whose first
    opening bracket is never closed, or that has none, is returned
    unchanged. *)
Theorem stripTags_equations :
  (forall a b rest,
      noOpening a = true -> noClosing b = true ->
      stripTags (a ++ String "<" b ++ String ">" rest) = a ++ stripTags rest) /\
  (forall s, tagFree s = true -> stripTags s = s).
Proof.
  split.
  - intros a b rest Ha Hb. unfold stripTags.
    rewrite stripTagsFrom_text by exact Ha. simpl.
    now rewrite stripTagsFrom_pending_closed.
  - intros s Hs. now apply stripTagsFrom_fixed.
Qed.

Lemma stripTags_equations_witness :
  stripTags ("Turn " ++ String "<" "b" ++ String ">" "left") =
  "Turn " ++ stripTags "left".
Proof.
  apply (proj1 stripTags_equations "Turn " "b" "left"); reflexivity.
Defined.

(** X5. What [stripTags] returns contains no complete tag any more, so
    stripping twice is the same as stripping once, and the result is never
    longer than the input. *)
Theorem stripTags_result s :
  tagFree (stripTags s) = true /\
  stripTags (stripTags s) = stripTags s /\
  String.length (stripTags s) <= String.length s.
Proof.
  assert (Hfree : tagFree (stripTags s) = true)
    by (apply (stripTagsFrom_tagFree s None); exact I).
  split; [exact Hfree|]. split.
  - now apply stripTagsFrom_fixed.
  - pose proof (stripTagsFrom_length s None) as H. simpl in H.
    unfold stripTags. lia.
Qed.

End StripTags.

(** ** The directions-based planner *)

Section DirectionsPlanner.

Import Maps.

Variable numCheckpoints : nat.
Variable route : list Leg.





End DirectionsPlanner.

Section DirectionsPlannerResults.

Import Maps.



(** The step loop pushes the first step at which the counter reaches the
    target. *)
Lemma stepsLoop_reach n target l :
  forall j csi cps step,
    length cps < n ->
    nth_error l j = Some step ->
    (forall j', j' < j -> csi + j' + 1 < target) ->
    target <= csi + j + 1 ->
    stepsLoop n target l csi cps =
    (csi + j + 1, cps ++ [checkpointOf step cps]).
Proof.
  induction l as [|s l IH]; intros j csi cps step Hlen Hnth Hbefore Hreach.
  - destruct j; discriminate.
  - destruct j as [|j]; simpl in *.
    + injection Hnth as ->.
      assert (Hc : (target <=? csi + 1) = true) by (apply Nat.leb_le; lia).
      assert (Hl : (length cps <? n) = true) by (apply Nat.ltb_lt; lia).
      rewrite Hc, Hl. simpl. f_equal. lia.
    + assert (Hc : (target <=? csi + 1) = false).
      { apply Nat.leb_gt. specialize (Hbefore 0). lia. }
      rewrite Hc. simpl.
      rewrite (IH j (csi + 1) cps step Hlen Hnth).
      * f_equal. lia.
      * intros j' Hj'. specialize (Hbefore (S j')). lia.
      * lia.
Qed.

Lemma single_leg_targets n l step :
  let k := length l / (n + 1) in
  let K := Nat.max k 1 in
  nth_error l (K - 1) = Some step ->
  forall count m,
    m + count = n ->
    targetsLoop n k [ {| steps := l |} ] count (S m) (m * K)
      (map (stepCheckpoint step) (seq 1 m)) =
    (n * K, map (stepCheckpoint step) (seq 1 n)).
Proof.
  intros k K Hstep. induction count as [|count IH]; intros m Hsum.
  - simpl. replace m with n by lia. reflexivity.
  - simpl.
    rewrite (stepsLoop_reach n (k + m * k) l (K - 1) (m * K) _ step).
    + assert (Hnext : map (stepCheckpoint step) (seq 1 m) ++
                      [checkpointOf step (map (stepCheckpoint step) (seq 1 m))] =
                      map (stepCheckpoint step) (seq 1 (S m))).
      { rewrite seq_S, map_app. unfold checkpointOf.
        rewrite length_map, length_seq. simpl.
        replace (m + 1) with (S m) by lia. reflexivity. }
      rewrite Hnext.
      replace (m * K + (K - 1) + 1) with (S m * K) by nia.
      destruct (n <=? _); apply IH; lia.
    + rewrite length_map, length_seq. lia.
    + exact Hstep.
    + intros j' Hj'. nia.
    + nia.
Qed.

(** X7. For a route of a single leg with at least one step, the step counter
    is not reset between targets while the steps are read again from the
    first: all [numCheckpoints] checkpoints are made from one and the same
    step, the one at position [max(stepInterval, 1) - 1]. *)
Theorem directions_single_leg_same_step l n :
  l <> [] ->
  exists step,
    nth_error l (Nat.max (length l / (n + 1)) 1 - 1) = Some step /\
    generateCheckpoints (directions [ {| steps := l |} ]) n =
    Normal (map (stepCheckpoint step) (seq 1 n)).
Proof.
  intros Hne.
  assert (Hlt : Nat.max (length l / (n + 1)) 1 - 1 < length l).
  { destruct l; [congruence|].
    pose proof (Nat.Div0.div_le_upper_bound (length (s :: l)) (n + 1)
                  (length (s :: l))) as Hdiv.
    assert (length (s :: l) / (n + 1) <= length (s :: l)) by (apply Hdiv; nia).
    simpl in *. lia. }
  destruct (nth_error l (Nat.max (length l / (n + 1)) 1 - 1)) as [step|] eqn:Hnth.
  2:{ apply nth_error_None in Hnth. lia. }
  exists step. split; [reflexivity|].
  unfold generateCheckpoints, directions. cbn [routes legs].
  assert (Htotal : totalSteps [ {| steps := l |} ] = length l) by reflexivity.
  rewrite Htotal.
  pose proof (single_leg_targets n l step Hnth n 0 eq_refl) as Hrun.
  simpl in Hrun. rewrite Hrun. reflexivity.
Qed.

Lemma directions_single_leg_same_step_witness :
  exists step,
    nth_error twoSteps (Nat.max (length twoSteps / (4 + 1)) 1 - 1) = Some step /\
    generateCheckpoints (directions [ {| steps := twoSteps |} ]) 4 =
    Normal (map (stepCheckpoint step) (seq 1 4)).
Proof.
  apply (directions_single_leg_same_step twoSteps 4). discriminate.
Defined.

End DirectionsPlannerResults.

(** ** Chapters cut out of a generated text *)

Section ParseTextProperties.

Import Gemini.

Variable split : string -> string -> list string.
Variable trim : string -> string.

Lemma parseLoop_map paragraphs per duration :
  forall count i acc,
    parseLoop paragraphs per duration count i acc =
    acc ++ map (parsedChapter paragraphs per duration) (seq i count).
Proof.
  induction count as [|count IH]; intros i acc; simpl.
  - now rewrite app_nil_r.
  - rewrite IH, <- app_assoc. reflexivity.
Qed.

Lemma firstn_plus {A : Type} (a b : nat) :
  forall l : list A, firstn (a + b) l = firstn a l ++ firstn b (skipn a l).
Proof.
  induction a as [|a IH]; intros l; simpl; [reflexivity|].
  destruct l as [|x l]; simpl.
  - now rewrite firstn_nil.
  - now rewrite IH.
Qed.

Lemma slices_concat {A : Type} (l : list A) (per : nat) :
  forall m,
    concat (map (fun i => slice l (i * per) (Nat.min ((i + 1) * per) (length l)))
                (seq 0 m)) =
    firstn (m * per) l.
Proof.
  induction m as [|m IH].
  - reflexivity.
  - rewrite seq_S, map_app, concat_app, IH. simpl. rewrite app_nil_r.
    unfold slice. rewrite <- firstn_plus.
    destruct (Nat.le_gt_cases ((m + 1) * per) (length l)) as [Hfit | Hover].
    + f_equal. lia.
    + rewrite (firstn_all2 (n := per + m * per)) by lia.
      apply firstn_all2. lia.
Qed.

Lemma ceilDiv_covers a b : 1 <= b -> a <= b * ceilDiv a b.
Proof.
  intros Hb. unfold ceilDiv.
  pose proof (Nat.div_mod_eq (a + b - 1) b) as Hdiv.
  pose proof (Nat.mod_upper_bound (a + b - 1) b) as Hmod.
  lia.
Qed.

(** X8. Whatever the text, [parseTextToChapters] returns exactly
    [numChapters] chapters, numbered from 1 in order, each with the given
    reading time and a content that is not empty. *)
Theorem parseTextToChapters_count text numChapters chapterDuration :
  exists chs,
    chapters (parseTextToChapters split trim text numChapters chapterDuration) =
      Some chs /\
    length chs = numChapters /\
    map chapterNumber chs = seq 1 numChapters /\
    Forall (fun ch => content ch <> EmptyString /\
                      estimatedReadingTime ch = chapterDuration) chs.
Proof.
  unfold parseTextToChapters. cbv zeta. eexists. split; [reflexivity|].
  rewrite parseLoop_map. simpl app. repeat split.
  - now rewrite length_map, length_seq.
  - rewrite map_map, <- seq_shift.
    apply map_ext. intros i. simpl. lia.
  - apply Forall_forall. intros ch Hin. apply in_map_iff in Hin as (i & <- & _).
    unfold parsedChapter. cbv zeta. simpl. split; [|reflexivity].
    destruct (String.eqb _ EmptyString) eqn:Heq.
    + discriminate.
    + now apply String.eqb_neq in Heq.
Qed.

(** X9. For at least one chapter, the paragraphs kept by the filter are
    dealt to the chapters in order, none lost and none repeated: chapter
    [i] gets the content of group [i], and the groups put end to end are
    the paragraphs. *)
Theorem parseTextToChapters_covers text numChapters chapterDuration :
  1 <= numChapters ->
  let paragraphs := paragraphsOf split trim text in
  let groups := map (chapterGroup paragraphs numChapters) (seq 0 numChapters) in
  concat groups = paragraphs /\
  exists chs,
    chapters (parseTextToChapters split trim text numChapters chapterDuration) =
      Some chs /\
    map content chs = map groupContent groups.
Proof.
  intros Hn paragraphs groups. split.
  - unfold groups, chapterGroup. cbv zeta. rewrite slices_concat.
    apply firstn_all2.
    pose proof (ceilDiv_covers (length paragraphs) numChapters Hn). lia.
  - unfold parseTextToChapters. cbv zeta. eexists. split; [reflexivity|].
    rewrite parseLoop_map. simpl app. unfold groups. rewrite !map_map.
    apply map_ext. intros i. reflexivity.
Qed.

End ParseTextProperties.

Lemma parseTextToChapters_covers_witness :
  Gemini.paragraphsOf splitOn trimSpaces storyText =
    [firstParagraph; (" " ++ secondParagraph)%string; thirdParagraph] /\
  concat (map (chapterGroup
                 (Gemini.paragraphsOf splitOn trimSpaces storyText) 2)
              (seq 0 2)) =
    Gemini.paragraphsOf splitOn trimSpaces storyText /\
  exists chs,
    chapters (Gemini.parseTextToChapters splitOn trimSpaces storyText 2 3) =
      Some chs /\
    map content chs =
      [(firstParagraph ++ Gemini.paragraphBreak ++ " " ++ secondParagraph)%string;
       thirdParagraph].
Proof.
  destruct (parseTextToChapters_covers splitOn trimSpaces storyText 2 3)
    as (Hall & chs & Hchs & Hcontent); [lia|].
  split; [vm_compute; reflexivity|]. split; [exact Hall|].
  exists chs. split; [exact Hchs|].
  rewrite Hcontent. vm_compute. reflexivity.
Defined.

(** ** Cache keys of stories *)

Section RouteKeys.

Import Database.

Local Open Scope N_scope.

Lemma codeUnits_bytes s : forallb (fun c => c <=? 255) (codeUnits s) = true.
Proof.
  unfold codeUnits. apply forallb_forall. intros c Hin.
  apply in_map_iff in Hin as (a & <- & _).
  apply N.leb_le. pose proof (N_ascii_bounded a). lia.
Qed.

Lemma routeKeyText_bytes {A : Type} origin destination (checkpoints : list A) :
  forallb (fun c => c <=? 255) (routeKeyText origin destination checkpoints) =
  forallb (fun c => c <=? 255) origin && forallb (fun c => c <=? 255) destination.
Proof.
  unfold routeKeyText. rewrite !forallb_app, codeUnits_bytes. simpl.
  now rewrite !andb_true_r.
Qed.

(** X10. [generateRouteKey] throws [InvalidCharacterError] exactly when the
    origin or the destination holds a code unit above 255, a character
    outside Latin-1; otherwise it returns a key made of letters and digits
    only. *)
Theorem generateRouteKey_latin1 {A : Type} origin destination
    (checkpoints : list A) :
  (generateRouteKey origin destination checkpoints = InvalidCharacterError <->
   exists c, In c (origin ++ destination) /\ 255 < c) /\
  (forall k,
      generateRouteKey origin destination checkpoints = Key k ->
      forallb isAlphanumeric k = true).
Proof.
  unfold generateRouteKey, btoa. rewrite routeKeyText_bytes, <- forallb_app.
  destruct (forallb (fun c => c <=? 255) (origin ++ destination)) eqn:Hall.
  - split.
    + split; [discriminate|].
      intros (c & Hin & Hc).
      rewrite forallb_forall in Hall. apply Hall in Hin.
      apply N.leb_le in Hin. lia.
    + intros k Hk. injection Hk as <-.
      apply forallb_forall. intros c Hin. now apply filter_In in Hin.
  - split; [|discriminate].
    split; [intros _|reflexivity].
    assert (Hex : existsb (fun c => negb (c <=? 255)) (origin ++ destination) = true).
    { clear -Hall. induction (origin ++ destination) as [|c l IH]; simpl in *.
      - discriminate.
      - destruct (c <=? 255); simpl in *; auto. }
    apply existsb_exists in Hex as (c & Hin & Hc).
    exists c. split; [exact Hin|].
    apply negb_true_iff, N.leb_gt in Hc. exact Hc.
Qed.

Lemma generateRouteKey_latin1_witness :
  generateRouteKey [72; 7891] (codeUnits "Market") [1; 2; 3; 4]%nat =
  InvalidCharacterError.
Proof.
  apply (proj1 (generateRouteKey_latin1 [72; 7891] (codeUnits "Market")
                  [1; 2; 3; 4]%nat)).
  exists 7891. split; [simpl; tauto | reflexivity].
Defined.

Lemma base64_app_groups groups :
  forall bytes rest,
    length bytes = (3 * groups)%nat ->
    base64 (bytes ++ rest) = base64 bytes ++ base64 rest.
Proof.
  induction groups as [|groups IH]; intros bytes rest Hlen.
  - destruct bytes; [reflexivity | discriminate].
  - destruct bytes as [|a [|b [|c bytes]]]; simpl in Hlen; try lia.
    change (base64 ((a :: b :: c :: bytes) ++ rest))
      with ([base64Char (N.shiftr a 2);
             base64Char (N.lor (N.shiftl (N.land a 3) 4) (N.shiftr b 4));
             base64Char (N.lor (N.shiftl (N.land b 15) 2) (N.shiftr c 6));
             base64Char (N.land c 63)] ++ base64 (bytes ++ rest)).
    rewrite (IH bytes rest) by lia. reflexivity.
Qed.

(** X11. The key is not injective: [+] and [/] are deleted from the base64
    text, so two origins that differ only in ending with [>] or [?] after
    a number of characters that leaves remainder 2 modulo 3 get the same
    key, whatever the destination and the checkpoints. *)
Theorem generateRouteKey_collision {A : Type} prefix groups x y destination
    (checkpoints : list A) :
  length prefix = (3 * groups)%nat ->
  generateRouteKey (prefix ++ [x; y; 62]) destination checkpoints =
  generateRouteKey (prefix ++ [x; y; 63]) destination checkpoints.
Proof.
  intros Hlen. unfold generateRouteKey, btoa.
  rewrite !routeKeyText_bytes, !forallb_app. simpl forallb.
  destruct (forallb (fun c => c <=? 255) prefix && _ && _); [|reflexivity].
  f_equal. unfold routeKeyText.
  rewrite <- !app_assoc.
  rewrite !(base64_app_groups groups prefix) by exact Hlen.
  rewrite !filter_app.
  apply (f_equal (app (filter isAlphanumeric (base64 prefix)))).
  (* the groups of [x; y; 62] and [x; y; 63] differ in their fourth
     character only, 43 or 47, which the filter deletes *)
  reflexivity.
Qed.

Lemma generateRouteKey_collision_witness :
  generateRouteKey (codeUnits "ab>") (codeUnits "Market") [1; 2; 3; 4]%nat =
  generateRouteKey (codeUnits "ab?") (codeUnits "Market") [1; 2; 3; 4]%nat.
Proof.
  apply (generateRouteKey_collision [] 0 97 98 (codeUnits "Market")
           [1; 2; 3; 4]%nat).
  reflexivity.
Defined.

End RouteKeys.

(** ** The audio service *)

Section AudioService.

Import Audio.

Local Open Scope R_scope.

Lemma orElse_nonzero value fallback : fallback <> 0 -> orElse value fallback <> 0.
Proof.
  intros Hf. unfold orElse. destruct value as [x|]; [|exact Hf].
  destruct (Req_dec_T x 0); assumption.
Qed.

(** X12. [speak] stops before it speaks: when the service is playing it
    cancels the engine first, then hands over exactly one utterance, which
    becomes the current one and carries the text and the selected voice.
    The playing flag is down afterwards, until the start event arrives. *)
Theorem speak_stops_first text options s :
  exists u,
    calls (speak text options s) =
      calls s ++ (if isPlaying s then [SynthesisCancel] else []) ++
      [SynthesisSpeak u] /\
    currentUtterance (speak text options s) = Some u /\
    utteranceText u = text /\
    utteranceVoice u = selectedVoice s /\
    isPlaying (speak text options s) = false /\
    isPaused (speak text options s) = isPaused s && negb (isPlaying s).
Proof.
  unfold speak, stop. cbv zeta. eexists.
  destruct (isPlaying s) eqn:Hp; simpl; rewrite ?Hp, <- ?app_assoc;
    repeat split; simpl; auto.
  - now rewrite andb_false_r.
  - now rewrite andb_true_r.
Qed.

(** X13. A rate, pitch or volume of 0 cannot be asked for: [speak] replaces
    a missing or zero option by its default (0.9, 1, 1) and passes every
    other value on, so the utterance never has a zero volume. *)
Theorem speak_options text options s :
  exists u,
    currentUtterance (speak text options s) = Some u /\
    utteranceRate u <> 0 /\ utterancePitch u <> 0 /\ utteranceVolume u <> 0 /\
    (forall v, volume options = Some v -> v <> 0 -> utteranceVolume u = v) /\
    (volume options = Some 0 \/ volume options = None -> utteranceVolume u = 1) /\
    (forall r, rate options = Some r -> r <> 0 -> utteranceRate u = r) /\
    (rate options = Some 0 \/ rate options = None -> utteranceRate u = 0.9) /\
    (forall p, pitch options = Some p -> p <> 0 -> utterancePitch u = p) /\
    (pitch options = Some 0 \/ pitch options = None -> utterancePitch u = 1).
Proof.
  unfold speak. cbv zeta. eexists. split; [reflexivity|]. simpl.
  split; [apply orElse_nonzero; lra|].
  split; [apply orElse_nonzero; lra|].
  split; [apply orElse_nonzero; lra|].
  unfold orElse. repeat split.
  - intros v -> Hv. destruct (Req_dec_T v 0); [contradiction | reflexivity].
  - intros [-> | ->]; [|reflexivity].
    destruct (Req_dec_T 0 0); [reflexivity | contradiction].
  - intros r -> Hr. destruct (Req_dec_T r 0); [contradiction | reflexivity].
  - intros [-> | ->]; [|reflexivity].
    destruct (Req_dec_T 0 0); [reflexivity | contradiction].
  - intros p -> Hp. destruct (Req_dec_T p 0); [contradiction | reflexivity].
  - intros [-> | ->]; [|reflexivity].
    destruct (Req_dec_T 0 0); [reflexivity | contradiction].
Qed.

Lemma speak_options_witness :
  exists u,
    currentUtterance
      (speak "Once upon a time"
         {| rate := Some 1.5; pitch := None; volume := Some 0 |} freshService) =
      Some u /\
    utteranceVolume u = 1 /\ utteranceRate u = 1.5 /\ utterancePitch u = 1.
Proof.
  destruct (speak_options "Once upon a time"
              {| rate := Some 1.5; pitch := None; volume := Some 0 |}
              freshService)
    as (u & Hu & _ & _ & _ & _ & Hzero & Hrate & _ & _ & Hpitch).
  exists u. split; [exact Hu|]. split; [|split].
  - apply Hzero. left. reflexivity.
  - apply Hrate; [reflexivity | lra].
  - apply Hpitch. right. reflexivity.
Defined.

(** X14. [stop] cancels the engine only while the service is playing: it
    then clears both flags and the current utterance, and otherwise leaves
    the service as it is; a second [stop] returns false and changes
    nothing. *)
Theorem stop_twice s :
  fst (stop s) = isPlaying s /\
  isPlaying (snd (stop s)) = false /\
  isPaused (snd (stop s)) = isPaused s && negb (isPlaying s) /\
  currentUtterance (snd (stop s)) =
    (if isPlaying s then None else currentUtterance s) /\
  calls (snd (stop s)) =
    calls s ++ (if isPlaying s then [SynthesisCancel] else []) /\
  (isPlaying s = false -> snd (stop s) = s) /\
  stop (snd (stop s)) = (false, snd (stop s)).
Proof.
  unfold stop. destruct (isPlaying s) eqn:Hp; simpl; rewrite ?Hp;
    repeat split; auto; try discriminate.
  - now rewrite andb_false_r.
  - now rewrite andb_true_r.
  - now rewrite app_nil_r.
Qed.

(** X15. Pausing and resuming follow the events of the engine: while an
    utterance plays, [pause] succeeds and [resume] is refused; once the
    pause event has arrived it is the other way round; and after the resume
    event the service plays again.  The engine got one pause and one
    resume. *)
Theorem pause_resume_protocol s :
  isPlaying s = true ->
  isPaused s = false ->
  fst (pause s) = true /\
  fst (resume s) = false /\
  let paused := onpause (snd (pause s)) in
  fst (pause paused) = false /\
  fst (resume paused) = true /\
  let resumed := onresume (snd (resume paused)) in
  isPlaying resumed = true /\
  isPaused resumed = false /\
  synthesisCalls (calls resumed) =
    synthesisCalls (calls s) ++ [SynthesisPause; SynthesisResume].
Proof.
  intros Hplaying Hpaused.
  unfold pause, resume, onpause, onresume. rewrite Hplaying, Hpaused. simpl.
  rewrite Hplaying. simpl. rewrite Hplaying. simpl.
  repeat split.
  unfold synthesisCalls. rewrite !filter_app. simpl.
  rewrite !app_nil_r, <- app_assoc. reflexivity.
Qed.

Lemma pause_resume_protocol_witness :
  fst (pause (onstart (speak "Hello" noOptions freshService))) = true /\
  fst (resume (onstart (speak "Hello" noOptions freshService))) = false.
Proof.
  destruct (pause_resume_protocol (onstart (speak "Hello" noOptions freshService)))
    as (Hp & Hr & _); [reflexivity | reflexivity |].
  split; [exact Hp | exact Hr].
Defined.

(** X16. An end or error event that arrives after a newer utterance has
    started (the event of the utterance that [speak] cancelled) takes the
    playing flag down and forgets the current utterance; from then on
    [stop] returns false and does not cancel the utterance that is
    playing. *)
Theorem late_event_disarms_stop text1 options1 text2 options2 error s :
  let playing :=
    onstart (speak text2 options2 (onstart (speak text1 options1 s))) in
  isPlaying playing = true /\
  (exists u, currentUtterance playing = Some u /\ utteranceText u = text2) /\
  (forall late,
      late = onend playing \/ late = onerror error playing ->
      isPlaying late = false /\
      currentUtterance late = None /\
      stop late = (false, late)).
Proof.
  intros playing. split; [reflexivity|]. split.
  - eexists. split; reflexivity.
  - intros late [-> | ->]; unfold onend, onerror, stop; cbv zeta;
      [destruct (onEndCallback _) | destruct (onErrorCallback _)];
      simpl; repeat split.
Qed.

End AudioService.

Section Voices.

Import Audio.

(** X17. [setVoice] succeeds exactly when a loaded voice has the given name;
    it then selects the first such voice, and otherwise leaves the service
    as it is. *)
Theorem setVoice_by_name voiceName s :
  (fst (setVoice voiceName s) = true <->
   exists v, In v (voices s) /\ name v = voiceName) /\
  (fst (setVoice voiceName s) = false -> snd (setVoice voiceName s) = s) /\
  (fst (setVoice voiceName s) = true ->
   exists v,
     selectedVoice (snd (setVoice voiceName s)) = Some v /\
     In v (voices s) /\ name v = voiceName /\
     find (fun x => String.eqb (name x) voiceName) (voices s) = Some v).
Proof.
  unfold setVoice.
  destruct (find (fun v => String.eqb (name v) voiceName) (voices s))
    as [voice|] eqn:Hfind; simpl.
  - apply find_some in Hfind as Hsome. destruct Hsome as [Hin Heq].
    apply String.eqb_eq in Heq.
    split; [|split].
    + split; [intros _; exists voice; auto | reflexivity].
    + discriminate.
    + intros _. exists voice. auto.
  - split; [|split].
    + split; [discriminate|].
      intros (v & Hin & Hname).
      pose proof (find_none _ _ Hfind v Hin) as Hno. simpl in Hno.
      apply String.eqb_neq in Hno. contradiction.
    + reflexivity.
    + discriminate.
Qed.

Lemma setVoice_by_name_witness :
  snd (setVoice "Nobody" (loadVoices [frenchVoice; englishVoice] freshService)) =
  loadVoices [frenchVoice; englishVoice] freshService.
Proof.
  apply (proj1 (proj2 (setVoice_by_name "Nobody"
                         (loadVoices [frenchVoice; englishVoice] freshService)))).
  reflexivity.
Defined.

Lemma filter_head_find {A : Type} (f : A -> bool) l x xs :
  filter f l = x :: xs -> find f l = Some x.
Proof.
  induction l as [|y l IH]; simpl; [discriminate|].
  destruct (f y).
  - intros H. injection H as -> _. reflexivity.
  - exact IH.
Qed.

(** X18. [loadVoices] never replaces a voice that is already selected, even
    when the new list does not hold it.  With no voice selected and a list
    that is not empty it selects a voice of the list: the first one whose
    language starts with [en] when there is one, the first of the list
    otherwise. *)
Theorem loadVoices_selection hostVoices s :
  voices (loadVoices hostVoices s) = hostVoices /\
  (forall v, selectedVoice s = Some v ->
             selectedVoice (loadVoices hostVoices s) = Some v) /\
  (selectedVoice s = None ->
   match hostVoices with
   | [] => selectedVoice (loadVoices hostVoices s) = None
   | first :: _ =>
       exists v,
         selectedVoice (loadVoices hostVoices s) = Some v /\
         In v hostVoices /\
         ((exists e, In e hostVoices /\ String.prefix "en" (lang e) = true) ->
          find (fun x => String.prefix "en" (lang x)) hostVoices = Some v) /\
         ((forall e, In e hostVoices -> String.prefix "en" (lang e) = false) ->
          v = first)
   end).
Proof.
  unfold loadVoices. cbv zeta.
  change (selectedVoice (setVoices hostVoices s)) with (selectedVoice s).
  change (voices (setVoices hostVoices s)) with hostVoices.
  split; [|split].
  - destruct (selectedVoice s); [reflexivity|].
    destruct hostVoices as [|first rest]; [reflexivity|].
    destruct (filter _ (first :: rest)); reflexivity.
  - intros v Hv. rewrite Hv. exact Hv.
  - intros Hnone. rewrite Hnone.
    destruct hostVoices as [|first rest]; [exact Hnone|].
    destruct (filter (fun voice => String.prefix "en" (lang voice)) (first :: rest))
      as [|english others] eqn:Hfilter.
    + exists first. simpl. split; [reflexivity|]. split; [now left|]. split.
      * intros (e & Hin & He).
        assert (Hmem : In e (filter (fun voice => String.prefix "en" (lang voice))
                               (first :: rest)))
          by (apply filter_In; auto).
        rewrite Hfilter in Hmem. contradiction.
      * reflexivity.
    + exists english. simpl.
      assert (Hmem : In english (filter (fun voice => String.prefix "en" (lang voice))
                                   (first :: rest)))
        by (rewrite Hfilter; now left).
      apply filter_In in Hmem as [Hin Hen].
      split; [reflexivity|]. split; [exact Hin|]. split.
      * intros _. exact (filter_head_find _ _ _ _ Hfilter).
      * intros Hno. rewrite (Hno english Hin) in Hen. discriminate.
Qed.

Lemma loadVoices_selection_witness :
  selectedVoice (loadVoices [englishVoice] (loadVoices [frenchVoice] freshService)) =
  Some frenchVoice.
Proof.
  apply (proj1 (proj2 (loadVoices_selection [englishVoice]
                         (loadVoices [frenchVoice] freshService)))).
  reflexivity.
Defined.

Lemma splitOnSpace_nonempty text : splitOnSpace text <> [].
Proof.
  destruct text as [|c rest]; simpl; [discriminate|].
  destruct (Ascii.eqb c " "); [discriminate|].
  destruct (splitOnSpace rest); discriminate.
Qed.

(** X19. [estimateReadingTime] rounds the number of pieces between spaces
    up to whole minutes: for a positive rate the estimate [m] is the least
    number of minutes with [words <= m * wpm], and it is never 0, the empty
    text being counted as one word. *)
Theorem estimateReadingTime_ceiling text wpm :
  1 <= wpm ->
  exists m,
    estimateReadingTime text wpm = Some m /\
    1 <= m /\
    length (splitOnSpace text) <= m * wpm /\
    (m - 1) * wpm < length (splitOnSpace text).
Proof.
  intros Hwpm. unfold estimateReadingTime. cbv zeta.
  destruct (wpm =? 0) eqn:Hz; [apply Nat.eqb_eq in Hz; lia|].
  eexists. split; [reflexivity|].
  pose proof (splitOnSpace_nonempty text) as Hne.
  set (words := length (splitOnSpace text)).
  assert (Hwords : 1 <= words).
  { unfold words. destruct (splitOnSpace text); [congruence | simpl; lia]. }
  pose proof (Nat.div_mod_eq (words + wpm - 1) wpm) as Hdiv.
  pose proof (Nat.mod_upper_bound (words + wpm - 1) wpm) as Hmod.
  set (m := (words + wpm - 1) / wpm) in *.
  assert (Hm : 1 <= m).
  { unfold m. apply Nat.div_le_lower_bound; lia. }
  repeat split; nia.
Qed.

Lemma estimateReadingTime_ceiling_witness :
  exists m, estimateReadingTime "" 150 = Some m /\ 1 <= m.
Proof.
  destruct (estimateReadingTime_ceiling "" 150) as (m & Hm & Hone & _); [lia|].
  exists m. split; [exact Hm | exact Hone].
Defined.

End Voices.

(** ** The current chapter across the events of the application *)

Section ChapterBounds.

Import Player.

Lemma stopPlayback_app w : app (stopPlayback w) = app w.
Proof.
  unfold stopPlayback, callService.
  destruct (Audio.stop (service w)) as [[|] svc]; reflexivity.
Qed.

Lemma step_chapterInBounds w e :
  chapterInBounds (app w) -> chapterInBounds (app (step w e)).
Proof.
  intros Hb. destruct e as [rd | i | p | | | screen | message | ]; simpl.
  - (* route selected *)
    unfold App.handleRouteSelected. cbv zeta.
    destruct (App.storyChapters (App.rd_story rd)) as [chs|] eqn:Hchs.
    + destruct (0 <? length chs) eqn:Hlen.
      * intros chs' Hstory _. simpl in Hstory.
        rewrite Hchs in Hstory. injection Hstory as <-.
        simpl. now apply Nat.ltb_lt in Hlen.
      * intros chs' Hstory Hne. simpl in Hstory.
        rewrite Hchs in Hstory. injection Hstory as <-.
        apply Nat.ltb_ge in Hlen. destruct chs; [congruence | simpl in Hlen; lia].
    + intros chs' Hstory _. simpl in Hstory. congruence.
  - (* checkpoint reached *)
    intros chs Hstory Hne.
    rewrite handleCheckpointReached_story in Hstory.
    rewrite handleCheckpointReached_chapter.
    destruct (includes _ _); [now apply Hb|].
    rewrite Hstory.
    destruct (i + 1 <? length chs) eqn:Hlt; [now apply Nat.ltb_lt in Hlt|].
    now apply Hb.
  - (* position update *)
    exact Hb.
  - (* previous chapter *)
    unfold handlePreviousChapter.
    destruct (0 <? App.currentChapter (app w)); [|exact Hb].
    intros chs Hstory Hne. simpl in *. rewrite stopPlayback_app in *.
    specialize (Hb chs Hstory Hne). lia.
  - (* next chapter *)
    unfold handleNextChapter.
    destruct (App.storyChapters (App.story (app w))) as [chs|] eqn:Hchs;
      [|exact Hb].
    destruct (App.currentChapter (app w) <? length chs - 1) eqn:Hlt; [|exact Hb].
    intros chs' Hstory Hne. simpl in *. rewrite stopPlayback_app in *.
    rewrite Hchs in Hstory. injection Hstory as <-.
    apply Nat.ltb_lt in Hlt. lia.
  - (* navigation *)
    exact Hb.
  - (* error *)
    exact Hb.
  - (* reset *)
    intros chs Hstory _. unfold resetApp, callService in Hstory.
    destruct (Audio.stop _) as [ok svc] in Hstory. simpl in Hstory. discriminate.
Qed.

(** X20. Whatever the sequence of events (routes selected, checkpoints
    reached in any order, positions, previous and next chapter, navigation,
    errors, resets), the current chapter designates a chapter of the story
    whenever the story has chapters: [story.chapters[currentChapter]] is
    never out of range. *)
Theorem currentChapter_always_in_bounds events :
  chapterInBounds (app (run events initialWorld)) /\
  forall chs,
    App.storyChapters (App.story (app (run events initialWorld))) = Some chs ->
    chs <> [] ->
    exists chapter,
      nth_error chs (App.currentChapter (app (run events initialWorld))) =
      Some chapter.
Proof.
  assert (Hinv : chapterInBounds (app (run events initialWorld))).
  { unfold run.
    assert (Hstart : chapterInBounds (app initialWorld))
      by (intros chs H; discriminate).
    revert Hstart. generalize initialWorld.
    induction events as [|e events IH]; intros w Hw; simpl; [exact Hw|].
    apply IH. now apply step_chapterInBounds. }
  split; [exact Hinv|].
  intros chs Hstory Hne.
  specialize (Hinv chs Hstory Hne).
  destruct (nth_error chs _) as [chapter|] eqn:Hnth.
  - now exists chapter.
  - apply nth_error_None in Hnth. lia.
Qed.



End ChapterBounds.

(** ** The proximity effect on any walk *)

Section ProximityEffect.

Import LeafletMaps LeafletMapView.

Local Arguments calculateDistance : simpl never.

Lemma forEachFrom_proximity render (here : Position) cps :
  forall idx pending calls,
    forEachFrom
      (fun checkpoint index s =>
         if includes (App.completedCheckpoints render) index then s
         else
           let distance :=
             calculateDistance (lat here) (lng here)
               (lat (position checkpoint)) (lng (position checkpoint)) in
           if Rle_dec distance 50
           then (fun index '(pending, calls) =>
                   (App.handleCheckpointReached render index pending,
                    calls ++ [index])) index s
           else s)
      cps idx (pending, calls) =
    (fold_left (fun p i => App.handleCheckpointReached render i p)
       (reachedFrom here (App.completedCheckpoints render) cps idx) pending,
     calls ++ reachedFrom here (App.completedCheckpoints render) cps idx).
Proof.
  induction cps as [|cp cps IH]; intros idx pending calls; simpl.
  - now rewrite app_nil_r.
  - unfold withinReach.
    destruct (includes (App.completedCheckpoints render) idx); simpl.
    + apply IH.
    + destruct (Rle_dec _ 50); simpl.
      * rewrite IH, <- app_assoc. reflexivity.
      * apply IH.
Qed.

Lemma proximityEffect_reached render (here : Position) :
  App.currentPosition render = Some here ->
  App.checkpoints render <> [] ->
  proximityEffect render =
  (fold_left (fun p i => App.handleCheckpointReached render i p)
     (reachedFrom here (App.completedCheckpoints render) (App.checkpoints render) 0)
     render,
   reachedFrom here (App.completedCheckpoints render) (App.checkpoints render) 0).
Proof.
  intros Hpos Hne. unfold proximityEffect, checkProximity. rewrite Hpos.
  destruct (App.checkpoints render) as [|cp cps] eqn:Hcps; [congruence|].
  change (length (cp :: cps) =? 0) with false. cbv iota.
  unfold forEach. rewrite forEachFrom_proximity. reflexivity.
Qed.

Lemma reachedFrom_spec (here : Position) completed cps :
  forall idx i,
    In i (reachedFrom here completed cps idx) <->
    idx <= i /\
    exists cp, nth_error cps (i - idx) = Some cp /\
               withinReach here cp = true /\ ~ In i completed.
Proof.
  induction cps as [|cp cps IH]; intros idx i; simpl.
  - split; [tauto|]. intros (_ & c & Hnth & _). destruct (i - idx); discriminate.
  - assert (Htail : In i (reachedFrom here completed cps (S idx)) <->
                    idx < i /\
                    exists c, nth_error (cp :: cps) (i - idx) = Some c /\
                              withinReach here c = true /\ ~ In i completed).
    { rewrite IH. split.
      - intros (Hle & c & Hnth & Hrest). split; [lia|]. exists c.
        replace (i - idx) with (S (i - S idx)) by lia. auto.
      - intros (Hlt & c & Hnth & Hrest). split; [lia|]. exists c.
        replace (i - idx) with (S (i - S idx)) in Hnth by lia. auto. }
    destruct (negb (includes completed idx) && withinReach here cp) eqn:Hcond.
    + apply andb_prop in Hcond as [Hinc Hreach].
      apply negb_true_iff, includes_not_In in Hinc.
      simpl. rewrite Htail. split.
      * intros [<- | (Hlt & Hex)].
        -- split; [lia|]. exists cp. rewrite Nat.sub_diag. auto.
        -- split; [lia | exact Hex].
      * intros (Hle & Hex).
        destruct (Nat.eq_dec idx i) as [-> | Hneq]; [now left|].
        right. split; [lia | exact Hex].
    + rewrite Htail. split.
      * intros (Hlt & Hex). split; [lia | exact Hex].
      * intros (Hle & c & Hnth & Hreach & Hnot).
        destruct (Nat.eq_dec idx i) as [-> | Hneq].
        -- rewrite Nat.sub_diag in Hnth. injection Hnth as <-.
           apply includes_not_In in Hnot. rewrite Hnot, Hreach in Hcond.
           discriminate.
        -- split; [lia|]. exists c. auto.
Qed.

Lemma reachedFrom_fresh (here : Position) completed cps idx i :
  In i (reachedFrom here completed cps idx) -> ~ In i completed.
Proof.
  intros Hin. apply reachedFrom_spec in Hin as (_ & c & _ & _ & Hnot). exact Hnot.
Qed.

Lemma reachedFrom_sorted (here : Position) completed cps :
  forall idx, StronglySorted lt (reachedFrom here completed cps idx).
Proof.
  induction cps as [|cp cps IH]; intros idx; simpl; [constructor|].
  destruct (negb (includes completed idx) && withinReach here cp).
  - constructor; [apply IH|].
    apply Forall_forall. intros i Hin. apply reachedFrom_spec in Hin. lia.
  - apply IH.
Qed.

Lemma list_eq_dec_nil {A : Type} (l : list A) : {l = []} + {l <> []}.
Proof. destruct l; [now left | right; discriminate]. Qed.

Lemma increasing_NoDup (l : list nat) : StronglySorted lt l -> NoDup l.
Proof.
  induction 1 as [|x l Hsorted IH Hall]; constructor; [|exact IH].
  intros Hin. rewrite Forall_forall in Hall. specialize (Hall x Hin). lia.
Qed.

Lemma fold_handler_completed render calls :
  forall pending,
    (forall i, In i calls -> ~ In i (App.completedCheckpoints render)) ->
    App.completedCheckpoints
      (fold_left (fun p i => App.handleCheckpointReached render i p) calls pending) =
    App.completedCheckpoints pending ++ calls.
Proof.
  induction calls as [|i calls IH]; intros pending Hfresh; simpl.
  - now rewrite app_nil_r.
  - rewrite IH by (intros j Hj; apply Hfresh; now right).
    rewrite handleCheckpointReached_completed.
    assert (Hi : includes (App.completedCheckpoints render) i = false)
      by (apply includes_not_In, Hfresh; now left).
    rewrite Hi, <- app_assoc. reflexivity.
Qed.

Lemma fold_handler_checkpoints render calls :
  forall pending,
    App.checkpoints
      (fold_left (fun p i => App.handleCheckpointReached render i p) calls pending) =
    App.checkpoints pending /\
    App.story
      (fold_left (fun p i => App.handleCheckpointReached render i p) calls pending) =
    App.story pending.
Proof.
  induction calls as [|i calls IH]; intros pending; simpl; [auto|].
  destruct (IH (App.handleCheckpointReached render i pending)) as [-> ->].
  rewrite handleCheckpointReached_story. split; [|reflexivity].
  unfold App.handleCheckpointReached.
  destruct (negb _); [|reflexivity].
  destruct (App.storyChapters _) as [chs|]; [destruct (_ <? _)|]; reflexivity.
Qed.

(** X22. One run of the proximity effect calls [onCheckpointReached] for
    exactly the array positions of the checkpoints that are within 50 m of
    the position and not yet completed, once each and in increasing order,
    and the commit appends these positions to the completed checkpoints.
    Without a position or without checkpoints it calls nothing. *)
Theorem proximityEffect_calls render :
  (App.currentPosition render = None \/ App.checkpoints render = [] ->
   proximityEffect render = (render, [])) /\
  (forall here : Position,
      App.currentPosition render = Some here ->
      App.checkpoints render <> [] ->
      let calls := snd (proximityEffect render) in
      (forall i,
          In i calls <->
          exists cp,
            nth_error (App.checkpoints render) i = Some cp /\
            (calculateDistance (lat here) (lng here)
               (lat (position cp)) (lng (position cp)) <= 50)%R /\
            ~ In i (App.completedCheckpoints render)) /\
      StronglySorted lt calls /\
      App.completedCheckpoints (fst (proximityEffect render)) =
        App.completedCheckpoints render ++ calls).
Proof.
  split.
  - unfold proximityEffect, checkProximity. intros [-> | ->]; [reflexivity|].
    destruct (App.currentPosition render); reflexivity.
  - intros here Hpos Hne calls. unfold calls.
    rewrite (proximityEffect_reached render here Hpos Hne). simpl.
    split; [|split].
    + intros i. rewrite reachedFrom_spec. rewrite Nat.sub_0_r.
      unfold withinReach. split.
      * intros (_ & cp & Hnth & Hreach & Hnot). exists cp.
        destruct (Rle_dec _ 50); [auto | discriminate].
      * intros (cp & Hnth & Hreach & Hnot). split; [lia|]. exists cp.
        destruct (Rle_dec _ 50); [auto | contradiction].
    + apply reachedFrom_sorted.
    + apply fold_handler_completed.
      intros i Hin. exact (reachedFrom_fresh _ _ _ _ _ Hin).
Qed.

Lemma proximityEffect_calls_witness :
  In 1 (snd (proximityEffect atPoint8)) /\
  ~ In 0 (snd (proximityEffect atPoint8)) /\
  App.completedCheckpoints (fst (proximityEffect atPoint8)) =
    [] ++ snd (proximityEffect atPoint8).
Proof.
  destruct (proj2 (proximityEffect_calls atPoint8)
              (positionAt (Scenario.pointLat 8) (Scenario.pointLng 8)) eq_refl)
    as (Hcalls & _ & Hcompleted).
  { change (App.checkpoints atPoint8) with Scenario.plannedCheckpoints.
    rewrite plannedCheckpoints_eq. discriminate. }
  split; [|split; [|exact Hcompleted]].
  - apply Hcalls. exists (pushed (Scenario.point 8) 2).
    split; [reflexivity|]. split; [|intros []].
    rewrite (calculateDistance_same (Scenario.pointLat 8) (Scenario.pointLng 8)
             : calculateDistance
                 (lat (positionAt (Scenario.pointLat 8) (Scenario.pointLng 8)))
                 (lng (positionAt (Scenario.pointLat 8) (Scenario.pointLng 8)))
                 (lat (position (pushed (Scenario.point 8) 2)))
                 (lng (position (pushed (Scenario.point 8) 2))) = 0%R).
    lra.
  - intros Hin. apply Hcalls in Hin as (cp & Hnth & Hreach & _).
    change (App.checkpoints atPoint8) with Scenario.plannedCheckpoints in Hnth.
    rewrite plannedCheckpoints_eq in Hnth. injection Hnth as <-.
    pose proof (near_point_8_far_from 4
                  (Scenario.pointLat 8) (Scenario.pointLng 8)
                  (or_introl eq_refl)) as Hfar.
    rewrite calculateDistance_same in Hfar.
    assert (H0 : (0 <= 50)%R) by lra. specialize (Hfar H0).
    change (lat (position (pushed (Scenario.point 4) 1)))
      with (Scenario.pointLat 4) in Hreach.
    change (lng (position (pushed (Scenario.point 4) 1)))
      with (Scenario.pointLng 4) in Hreach.
    change (lat (positionAt (Scenario.pointLat 8) (Scenario.pointLng 8)))
      with (Scenario.pointLat 8) in Hreach.
    change (lng (positionAt (Scenario.pointLat 8) (Scenario.pointLng 8)))
      with (Scenario.pointLng 8) in Hreach.
    lra.
Defined.

Lemma proximityEffect_valid render :
  completedValid render -> completedValid (fst (proximityEffect render)).
Proof.
  intros [Hnodup Hbound].
  destruct (App.currentPosition render) as [here|] eqn:Hpos.
  2:{ unfold proximityEffect, checkProximity. rewrite Hpos. now split. }
  destruct (list_eq_dec_nil (App.checkpoints render)) as [Hnil | Hne].
  { assert (Hrun : proximityEffect render = (render, [])).
    { unfold proximityEffect, checkProximity. now rewrite Hpos, Hnil. }
    rewrite Hrun. now split. }
  rewrite (proximityEffect_reached render here Hpos Hne). simpl.
  unfold completedValid.
  rewrite fold_handler_completed
    by (intros i Hin; exact (reachedFrom_fresh _ _ _ _ _ Hin)).
  rewrite (proj1 (fold_handler_checkpoints render _ render)).
  split.
  - apply NoDup_app.
    + exact Hnodup.
    + apply increasing_NoDup, reachedFrom_sorted.
    + intros i Hin Hin'. exact (reachedFrom_fresh _ _ _ _ _ Hin' Hin).
  - intros i Hin. apply in_app_or in Hin as [Hin | Hin]; [now apply Hbound|].
    apply reachedFrom_spec in Hin as (_ & c & Hnth & _).
    rewrite Nat.sub_0_r in Hnth.
    apply nth_error_Some. congruence.
Qed.

End ProximityEffect.

Section WalkInvariants.

Import LeafletMaps LeafletMapView.

Local Arguments calculateDistance : simpl never.

Lemma proximityEffect_checkpoints render :
  App.checkpoints (fst (proximityEffect render)) = App.checkpoints render.
Proof.
  destruct (App.currentPosition render) as [here|] eqn:Hpos.
  2:{ unfold proximityEffect, checkProximity. now rewrite Hpos. }
  destruct (list_eq_dec_nil (App.checkpoints render)) as [Hnil | Hne].
  { unfold proximityEffect, checkProximity. now rewrite Hpos, Hnil. }
  rewrite (proximityEffect_reached render here Hpos Hne). simpl.
  apply fold_handler_checkpoints.
Qed.

Lemma afterSamples_valid samples :
  forall s,
    completedValid s ->
    completedValid (afterSamples samples s) /\
    App.checkpoints (afterSamples samples s) = App.checkpoints s.
Proof.
  unfold afterSamples.
  induction samples as [|p samples IH]; intros s Hvalid; simpl; [auto|].
  destruct (IH (fst (proximityEffect (App.setCurrentPosition (Some p) s))))
    as [Hv Hc].
  { apply proximityEffect_valid. destruct Hvalid as [Hnodup Hbound].
    split; [exact Hnodup | exact Hbound]. }
  split; [exact Hv|].
  rewrite Hc. apply (proximityEffect_checkpoints (App.setCurrentPosition (Some p) s)).
Qed.

Lemma reachedFrom_shared_point :
  reachedFrom (positionAt 0 0) [] (map (pushed (0%R, 0%R)) [1; 2; 3; 4]) 0 =
  [0; 1; 2; 3].
Proof.
  assert (Hreach : forall i,
             withinReach (positionAt 0 0) (pushed (0%R, 0%R) i) = true).
  { intros i. unfold withinReach.
    cbn [positionAt pushed position latlng lat lng fst snd].
    rewrite calculateDistance_same.
    destruct (Rle_dec 0 50) as [_ | Hn]; [reflexivity | exfalso; apply Hn; lra]. }
  cbn [map reachedFrom]. rewrite !Hreach. reflexivity.
Qed.

Lemma atSharedPoint_effect :
  snd (proximityEffect atSharedPoint) = [0; 1; 2; 3] /\
  App.completedCheckpoints (fst (proximityEffect atSharedPoint)) = [0; 1; 2; 3].
Proof.
  rewrite (proximityEffect_reached atSharedPoint (positionAt 0 0) eq_refl)
    by discriminate.
  cbn [fst snd].
  change (App.completedCheckpoints atSharedPoint) with (@nil nat).
  change (App.checkpoints atSharedPoint) with (map (pushed (0%R, 0%R)) [1; 2; 3; 4]).
  rewrite reachedFrom_shared_point. split; [reflexivity|].
  rewrite fold_handler_completed; [reflexivity|].
  intros i _ [].
Qed.

(** X23. Position samples keep the completed checkpoints valid: from any
    state where they are distinct array positions of checkpoints of the
    route, any run of samples leaves them so, only appends to them and
    keeps the checkpoints, so the number completed never exceeds the number
    of checkpoints.  This holds after the first selection of a route.
    [handleRouteSelected] does not reset the completed checkpoints: after
    a second selection they are those of the previous route, and can lie
    outside the new one. *)
Theorem completed_checkpoints_valid :
  (forall samples s,
      completedValid s ->
      let s' := afterSamples samples s in
      App.checkpoints s' = App.checkpoints s /\
      NoDup (App.completedCheckpoints s') /\
      (forall i, In i (App.completedCheckpoints s') ->
                 i < length (App.checkpoints s)) /\
      length (App.completedCheckpoints s') <= length (App.checkpoints s)) /\
  (forall route cps st, completedValid (routeSelected route cps st)) /\
  (forall routeData s,
      App.completedCheckpoints (App.handleRouteSelected routeData s) =
      App.completedCheckpoints s /\
      App.checkpoints (App.handleRouteSelected routeData s) =
      App.rd_checkpoints routeData) /\
  (exists s routeData,
      completedValid s /\
      ~ completedValid (App.handleRouteSelected routeData s)).
Proof.
  assert (Hselect : forall routeData s,
             App.completedCheckpoints (App.handleRouteSelected routeData s) =
             App.completedCheckpoints s /\
             App.checkpoints (App.handleRouteSelected routeData s) =
             App.rd_checkpoints routeData).
  { intros routeData s. unfold App.handleRouteSelected. cbv zeta.
    destruct (App.storyChapters _) as [chs|]; [destruct (0 <? length chs)|];
      split; reflexivity. }
  split; [|split; [|split; [exact Hselect|]]].
  - intros samples s Hvalid s'.
    destruct (afterSamples_valid samples s Hvalid) as [[Hnodup Hbound] Hsame].
    fold s' in Hnodup, Hbound, Hsame. rewrite Hsame in Hbound.
    split; [exact Hsame|]. split; [exact Hnodup|]. split; [exact Hbound|].
    rewrite <- (length_seq (length (App.checkpoints s)) 0).
    apply NoDup_incl_length; [exact Hnodup|].
    intros i Hin. apply in_seq. specialize (Hbound i Hin). lia.
  - intros route cps st. unfold routeSelected, completedValid.
    destruct (Hselect {| App.rd_route := route; App.rd_checkpoints := cps;
                         App.rd_story := st |} App.initialState) as [-> _].
    split; [constructor | intros i []].
  - exists (walkingState [0; 1; 2; 3] 4), secondRoute. split.
    + split; [repeat constructor; simpl; intuition lia|].
      simpl. intros i Hi. intuition lia.
    + intros [_ Hbound].
      destruct (Hselect secondRoute (walkingState [0; 1; 2; 3] 4)) as [Hc Hk].
      rewrite Hc, Hk in Hbound.
      specialize (Hbound 3). simpl in Hbound. intuition lia.
Qed.

(** X24. When a run of the effect reaches several checkpoints at once, the
    handler calls follow the array order and the last one wins: the current
    chapter becomes the highest reached position plus one, provided the
    story has that chapter. *)
Theorem proximityEffect_chapter render (here : Position) chs earlier lastCall :
  App.currentPosition render = Some here ->
  App.checkpoints render <> [] ->
  App.storyChapters (App.story render) = Some chs ->
  snd (proximityEffect render) = earlier ++ [lastCall] ->
  lastCall + 1 < length chs ->
  App.currentChapter (fst (proximityEffect render)) = lastCall + 1 /\
  Forall (fun i => i < lastCall) earlier.
Proof.
  intros Hpos Hne Hchs Hcalls Hin.
  rewrite (proximityEffect_reached render here Hpos Hne) in *. simpl in *.
  pose proof (reachedFrom_sorted here (App.completedCheckpoints render)
                (App.checkpoints render) 0) as Hsorted.
  assert (Hfresh : ~ In lastCall (App.completedCheckpoints render)).
  { apply (reachedFrom_fresh here _ (App.checkpoints render) 0).
    rewrite Hcalls. apply in_or_app. right. now left. }
  rewrite Hcalls in *. split.
  - rewrite fold_left_app. simpl.
    rewrite handleCheckpointReached_chapter.
    apply includes_not_In in Hfresh. rewrite Hfresh, Hchs.
    apply Nat.ltb_lt in Hin. now rewrite Hin.
  - clear -Hsorted. induction earlier as [|x earlier IH]; [constructor|].
    simpl in Hsorted. inversion Hsorted as [|? ? Htail Hall]; subst.
    constructor; [|now apply IH].
    rewrite Forall_forall in Hall. apply Hall. apply in_or_app. right. now left.
Qed.

Lemma proximityEffect_chapter_witness :
  snd (proximityEffect atSharedPoint) = [0; 1; 2] ++ [3] /\
  App.currentChapter (fst (proximityEffect atSharedPoint)) = 3 + 1 /\
  Forall (fun i => i < 3) [0; 1; 2].
Proof.
  destruct atSharedPoint_effect as [Hcalls _].
  destruct fiveChapters_chapters as (chs & Hchs & Hlen).
  split; [exact Hcalls|].
  apply (proximityEffect_chapter atSharedPoint (positionAt 0 0) chs [0; 1; 2] 3).
  - reflexivity.
  - discriminate.
  - exact Hchs.
  - exact Hcalls.
  - rewrite Hlen. lia.
Defined.

(** X25. With valid completed checkpoints, the count test of the trip
    completion holds exactly when every checkpoint of the route is
    completed: the effect calls [completeTrip] when all checkpoints are
    completed or the position is within 50 m of the destination, and never
    without checkpoints or without a position. *)
Theorem destinationTest_complete (here : Position) cps completed route :
  NoDup completed ->
  (forall i, In i completed -> i < length cps) ->
  (destinationTest (Some here) cps completed (Some route) = true <->
   cps <> [] /\
   ((forall i, i < length cps -> In i completed) \/
    (calculateDistance (lat here) (lng here)
       (lat (destCoords route)) (lng (destCoords route)) <= 50)%R)) /\
  destinationTest None cps completed (Some route) = false /\
  destinationTest (Some here) [] completed (Some route) = false.
Proof.
  intros Hnodup Hbound.
  assert (Hcount : (length completed =? length cps) = true <->
                   forall i, i < length cps -> In i completed).
  { rewrite Nat.eqb_eq. split.
    - intros Hlen i Hi.
      apply (NoDup_length_incl Hnodup (l' := seq 0 (length cps))).
      + rewrite length_seq. lia.
      + intros j Hj. apply in_seq. specialize (Hbound j Hj). lia.
      + apply in_seq. lia.
    - intros Hall. apply Nat.le_antisymm.
      + rewrite <- (length_seq (length cps) 0).
        apply NoDup_incl_length; [exact Hnodup|].
        intros j Hj. apply in_seq. specialize (Hbound j Hj). lia.
      + rewrite <- (length_seq (length cps) 0) at 1.
        apply NoDup_incl_length; [apply seq_NoDup|].
        intros j Hj. apply in_seq in Hj. apply Hall. lia. }
  split; [|split; reflexivity].
  unfold destinationTest.
  destruct cps as [|cp cps].
  - simpl. split; [discriminate | intros [H _]; congruence].
  - change (length (cp :: cps) =? 0) with false. cbv iota.
    rewrite orb_true_iff, Hcount.
    destruct (Rle_dec _ 50) as [Hle | Hgt].
    + split; [intros _ | intros _; now right].
      split; [discriminate | now right].
    + split.
      * intros [Hall | Hfalse]; [|discriminate].
        split; [discriminate | now left].
      * intros [_ [Hall | Hle]]; [now left | contradiction].
Qed.

Lemma destinationTest_complete_witness :
  destinationTest
    (Some {| latlng := Scenario.origin; accuracy := 0%R; timestamp := 0%R |})
    Scenario.plannedCheckpoints [0; 1; 2; 3] (Some Scenario.walk) = true.
Proof.
  assert (Hnodup : NoDup [0; 1; 2; 3]).
  { repeat constructor; simpl; intuition lia. }
  assert (Hbound : forall i, In i [0; 1; 2; 3] ->
                             i < length Scenario.plannedCheckpoints).
  { rewrite plannedCheckpoints_eq. simpl. intros i Hi. intuition lia. }
  apply (proj1 (destinationTest_complete
                  {| latlng := Scenario.origin;
                     accuracy := 0%R; timestamp := 0%R |}
                  Scenario.plannedCheckpoints [0; 1; 2; 3] Scenario.walk
                  Hnodup Hbound)).
  split.
  - rewrite plannedCheckpoints_eq. discriminate.
  - left. rewrite plannedCheckpoints_eq. simpl. intros i Hi. lia.
Defined.

Lemma completed_checkpoints_valid_witness :
  App.completedCheckpoints (afterSamples [positionAt 0 0] (walkingState [] 0)) =
    [0; 1; 2; 3] /\
  NoDup (App.completedCheckpoints
           (afterSamples [positionAt 0 0] (walkingState [] 0))) /\
  length (App.completedCheckpoints
            (afterSamples [positionAt 0 0] (walkingState [] 0))) <=
  length (App.checkpoints (walkingState [] 0)).
Proof.
  assert (Hvalid : completedValid (walkingState [] 0))
    by (split; [constructor | intros i []]).
  destruct (proj1 completed_checkpoints_valid [positionAt 0 0]
              (walkingState [] 0) Hvalid) as (_ & Hnodup & _ & Hlen).
  split; [exact (proj2 atSharedPoint_effect)|].
  split; [exact Hnodup | exact Hlen].
Defined.

End WalkInvariants.

Section Summaries.

Import LeafletMaps.

Local Open Scope R_scope.

(** X29. For a duration that is not negative, [formatDuration] splits the
    whole minutes into hours and fewer than 60 minutes, and shows the hours
    exactly from 60 minutes on. *)
Theorem formatDuration_parts minutes :
  0 <= minutes ->
  let hours := fst (TripSummary.durationParts minutes) in
  let mins := snd (TripSummary.durationParts minutes) in
  (0 <= mins < 60)%Z /\
  (60 * hours + mins = Zfloor minutes)%Z /\
  TripSummary.formatDuration minutes =
  (if (Zfloor minutes <? 60)%Z
   then TripSummary.showZ mins ++ "m"
   else TripSummary.showZ hours ++ "h " ++ TripSummary.showZ mins ++ "m")%string.
Proof.
  intros Hnn hours mins.
  assert (Hq : 0 <= minutes / 60) by lra.
  assert (Hhours : hours = Zfloor (minutes / 60)) by reflexivity.
  assert (Hmins : mins = (Zfloor minutes - 60 * hours)%Z).
  { unfold mins, TripSummary.durationParts, TripSummary.remainder. cbv zeta.
    cbn [snd]. destruct (Rle_dec 0 (minutes / 60)) as [_ | Hneg]; [|lra].
    fold hours. rewrite <- Hhours.
    replace (minutes - 60 * IZR hours) with (minutes + IZR (- (60 * hours)))
      by (rewrite opp_IZR, mult_IZR; lra).
    rewrite Zfloor_addz. lia. }
  pose proof (Zfloor_bound (minutes / 60)) as [Hlo Hhi].
  rewrite <- Hhours in Hlo, Hhi.
  pose proof (Zfloor_bound minutes) as [Hflo Hfhi].
  assert (Hrange : (60 * hours <= Zfloor minutes < 60 * hours + 60)%Z).
  { split.
    - apply Zfloor_lub. rewrite mult_IZR. lra.
    - apply lt_IZR. rewrite plus_IZR, mult_IZR. lra. }
  split; [lia|]. split; [lia|].
  unfold TripSummary.formatDuration.
  rewrite (surjective_pairing (TripSummary.durationParts minutes)).
  fold hours mins.
  destruct (Z.ltb_spec 0 hours) as [Hpos | Hzero];
    destruct (Z.ltb_spec (Zfloor minutes) 60) as [Hshort | Hlong];
    try reflexivity; lia.
Qed.

Lemma formatDuration_parts_witness :
  (60 * fst (TripSummary.durationParts 135) +
   snd (TripSummary.durationParts 135) = Zfloor 135)%Z.
Proof.
  apply (formatDuration_parts 135). lra.
Defined.

Lemma minDistance_over (here : Position) (path : list LatLng) :
  forall index acc,
    match
      forEachFrom
        (fun (point : LatLng) (_ : nat) minDistance =>
           let distance :=
             calculateDistance (lat here) (lng here) (lat point) (lng point) in
           match minDistance with
           | None => Some distance
           | Some m => Some (Rmin m distance)
           end)
        path index acc
    with
    | None => acc = None /\ path = []
    | Some m =>
        100 < m <->
        match acc with None => True | Some a => 100 < a end /\
        forall point, In point path ->
          100 < calculateDistance (lat here) (lng here) (lat point) (lng point)
    end.
Proof.
  induction path as [|p rest IH]; intros index acc.
  - simpl. destruct acc as [a|]; [|now split].
    split; [intros H; split; [exact H | intros point []] | intros [H _]; exact H].
  - cbn [forEachFrom].
    match goal with
    | |- context [forEachFrom ?f rest (S index) ?acc'] =>
        specialize (IH (S index) acc');
        destruct (forEachFrom f rest (S index) acc') as [m|]
    end.
    + rewrite IH. cbv zeta. destruct acc as [a|].
      * unfold Rmin. split.
        -- intros [Hmin Hrest]. destruct (Rle_dec a _) as [Hle | Hgt].
           ++ split; [exact Hmin|]. intros point [<- | Hin]; [lra | now apply Hrest].
           ++ split; [lra|]. intros point [<- | Hin]; [exact Hmin | now apply Hrest].
        -- intros [Ha Hall]. split.
           ++ pose proof (Hall p (or_introl eq_refl)) as Hp.
              destruct (Rle_dec a _); lra.
           ++ intros point Hin. apply Hall. now right.
      * split.
        -- intros [Hd Hrest]. split; [exact I|].
           intros point [<- | Hin]; [exact Hd | now apply Hrest].
        -- intros [_ Hall]. split.
           ++ apply Hall. now left.
           ++ intros point Hin. apply Hall. now right.
    + destruct IH as [Hacc _]. cbv zeta in Hacc. destruct acc; discriminate.
Qed.

(** X30. With a position and the route details, the walker is flagged off
    route exactly when every point of the overview path is more than 100 m
    away, so always when the path has no point; without a position or
    without the details the flag keeps its value. *)
Theorem checkRouteAdherence_off_route (here : Position) path flag :
  (MapView.checkRouteAdherence (Some here) (Some path) flag = true <->
   forall point, In point path ->
     100 < calculateDistance (lat here) (lng here) (lat point) (lng point)) /\
  MapView.checkRouteAdherence (Some here) (Some []) flag = true /\
  MapView.checkRouteAdherence None (Some path) flag = flag /\
  MapView.checkRouteAdherence (Some here) None flag = flag.
Proof.
  split; [|repeat split].
  unfold MapView.checkRouteAdherence, MapView.minDistanceTo, forEach.
  pose proof (minDistance_over here path 0 None) as H.
  destruct (forEachFrom _ path 0 None) as [m|].
  - destruct (Rgt_dec m 100) as [Hgt | Hle].
    + split; [intros _ | reflexivity]. apply H. exact Hgt.
    + split; [discriminate|]. intros Hall. exfalso. apply Hle.
      apply H. split; [exact I | exact Hall].
  - destruct H as [_ ->]. split; [intros _ point [] | reflexivity].
Qed.

End Summaries.

Section Instances.

Lemma late_event_disarms_stop_witness :
  Audio.stop
    (Audio.onend
       (Audio.onstart
          (Audio.speak "two" noOptions
             (Audio.onstart (Audio.speak "one" noOptions freshService))))) =
  (false,
   Audio.onend
     (Audio.onstart
        (Audio.speak "two" noOptions
           (Audio.onstart (Audio.speak "one" noOptions freshService))))).
Proof.
  destruct (late_event_disarms_stop "one" noOptions "two" noOptions
              "interrupted" freshService) as (_ & _ & Hlate).
  apply Hlate. left. reflexivity.
Defined.

Lemma currentChapter_always_in_bounds_witness :
  chapterInBounds
    (Player.app
       (Player.run
          [Player.RouteSelected
             {| App.rd_route := Scenario.walk;
                App.rd_checkpoints := Scenario.plannedCheckpoints;
                App.rd_story := Some Scenario.narration |};
           Player.CheckpointReached 7; Player.NextChapter;
           Player.CheckpointReached 3]
          initialWorld)).
Proof.
  apply (proj1 (currentChapter_always_in_bounds
                  [Player.RouteSelected
                     {| App.rd_route := Scenario.walk;
                        App.rd_checkpoints := Scenario.plannedCheckpoints;
                        App.rd_story := Some Scenario.narration |};
                   Player.CheckpointReached 7; Player.NextChapter;
                   Player.CheckpointReached 3])).
Defined.

Lemma checkRouteAdherence_off_route_witness :
  MapView.checkRouteAdherence (Some (positionAt 0 0))
    (Some [{| lat := 1%R; lng := 0%R |}; {| lat := 0%R; lng := 0%R |}]) true =
  false.
Proof.
  destruct (MapView.checkRouteAdherence (Some (positionAt 0 0))
              (Some [{| lat := 1%R; lng := 0%R |}; {| lat := 0%R; lng := 0%R |}])
              true) eqn:Hflag; [|reflexivity].
  pose proof (proj1 (proj1 (checkRouteAdherence_off_route (positionAt 0 0)
                  [{| lat := 1%R; lng := 0%R |}; {| lat := 0%R; lng := 0%R |}]
                  true)) Hflag) as Hfar.
  clear Hflag. rename Hfar into Hflag.
  specialize (Hflag {| lat := 0%R; lng := 0%R |} (or_intror (or_introl eq_refl))).
  cbn [positionAt latlng lat lng] in Hflag.
  rewrite calculateDistance_same in Hflag. lra.
Defined.

Lemma stop_twice_witness :
  snd (Audio.stop
         (snd (Audio.stop
                 (Audio.onstart (Audio.speak "one" noOptions freshService))))) =
  snd (Audio.stop (Audio.onstart (Audio.speak "one" noOptions freshService))).
Proof.
  destruct (stop_twice
              (snd (Audio.stop
                      (Audio.onstart (Audio.speak "one" noOptions freshService)))))
    as (_ & _ & _ & _ & _ & Hidle & _).
  apply Hidle. reflexivity.
Defined.

End Instances.
